(** * webscrap: the crawl engine of [ai_web_scraper.py], embedded in Rocq

    The development follows the Python source function by function:
    URL normalisation ([normalize_url]), text cleaning ([clean_text]),
    the classification fallback ([analyze_content_with_ai]), the page
    processor ([get_page_content]), the language buckets
    ([save_page_content]), the crawl loop ([scrape_website]) and the
    ordering of the per-language documents.

    Python strings are sequences of code points, so a [str] is a list of
    [N]; dictionaries and sets are stdpp's [gmap] and [gset]; exceptions are
    an explicit [Result]; the mutable scraper object is a record threaded
    through a small state-and-exception monad. *)

From Stdlib Require Import ZArith NArith Lia Ascii String List Permutation Sorted.
From stdpp Require Import base decidable option list sorting gmap.

Local Open Scope N_scope.

(** ** Python strings *)

Abbreviation pystr := (list N).

Definition chr (a : ascii) : N := N_of_ascii a.

(** A literal of the source, as its code points. *)
Definition str (s : string) : pystr := chr <$> list_ascii_of_string s.

Definition in_range (lo hi c : N) : bool := (lo <=? c) && (c <=? hi).

Definition isascii (c : N) : bool := c <? 128.
Definition is_upper (c : N) : bool := in_range 65 90 c.
Definition is_lower (c : N) : bool := in_range 97 122 c.
Definition is_digit (c : N) : bool := in_range 48 57 c.
Definition is_ascii_alpha (c : N) : bool := is_upper c || is_lower c.

(** [str.lower] on the ASCII letters (the only letters the callers below can
    hold: a URL scheme, an HTTP header value matched against ASCII needles). *)
Definition lower_char (c : N) : N := if is_upper c then c + 32 else c.
Definition lower (s : pystr) : pystr := lower_char <$> s.

(** [c in s] for a single character. *)
Definition has_char (c : N) (s : pystr) : bool := existsb (N.eqb c) s.

(** [s.count(c)] for a single character. *)
Definition count_char (c : N) (s : pystr) : nat :=
  List.length (List.filter (N.eqb c) s).

Fixpoint startswith (s p : pystr) : bool :=
  match p, s with
  | [], _ => true
  | _ :: _, [] => false
  | x :: p', y :: s' => (x =? y) && startswith s' p'
  end.

(** [needle in s] *)
Fixpoint contains (s needle : pystr) : bool :=
  startswith s needle ||
  match s with
  | [] => false
  | _ :: s' => contains s' needle
  end.

(** [s.endswith(c)] for a single character. *)
Definition endswith_char (s : pystr) (c : N) : bool :=
  match last s with
  | Some x => x =? c
  | None => false
  end.

(** [s[:-1]] *)
Definition drop_last (s : pystr) : pystr := take (List.length s - 1)%nat s.

(** [s.split(c, 1)] when [c in s]: the text before and after the first [c]. *)
Fixpoint cut (c : N) (s : pystr) : option (pystr * pystr) :=
  match s with
  | [] => None
  | x :: r =>
      if x =? c then Some ([], r)
      else match cut c r with
           | Some (a, b) => Some (x :: a, b)
           | None => None
           end
  end.

(** [s.split(c)]: always at least one field. *)
Fixpoint split_on (c : N) (s : pystr) : list pystr :=
  match s with
  | [] => [[]]
  | x :: r =>
      if x =? c then [] :: split_on c r
      else match split_on c r with
           | f :: fs => (x :: f) :: fs
           | [] => [[x]]
           end
  end.

(** [c.join(fields)] *)
Fixpoint join (c : N) (fields : list pystr) : pystr :=
  match fields with
  | [] => []
  | [f] => f
  | f :: fs => f ++ c :: join c fs
  end.

(** [s.replace(old, new)] for a single character [old]. *)
Definition replace_char (old : N) (new : pystr) (s : pystr) : pystr :=
  s ≫= (fun c => if c =? old then new else [c]).

(** Python compares strings by code point, lexicographically. *)
Fixpoint str_lt (a b : pystr) : bool :=
  match a, b with
  | _, [] => false
  | [], _ :: _ => true
  | x :: a', y :: b' => (x <? y) || ((x =? y) && str_lt a' b')
  end.

(** ** Exceptions *)

Inductive exn : Type :=
  | ValueError
  | TypeError
  | AttributeError
  | KeyError
  | UnicodeEncodeError
  | RequestException
  | OSError
  | OtherException (tag : N).

Inductive Result (A : Type) : Type :=
  | Return (a : A)
  | Raise (e : exn).
Arguments Return {A} a.
Arguments Raise {A} e.

Definition rbind {A B} (r : Result A) (k : A -> Result B) : Result B :=
  match r with
  | Return a => k a
  | Raise e => Raise e
  end.

Fixpoint rmapM {A B} (f : A -> Result B) (l : list A) : Result (list B) :=
  match l with
  | [] => Return []
  | x :: r =>
      rbind (f x) (fun y => rbind (rmapM f r) (fun ys => Return (y :: ys)))
  end.


(** ** [urllib.parse]

    The functions of the Python standard library that [normalize_url] calls,
    after CPython 3.12: [urlparse], [parse_qs] and [urlencode], with their
    helpers [unquote] and [quote_plus]. *)

Fixpoint take_while (p : N -> bool) (s : pystr) : pystr :=
  match s with
  | [] => []
  | c :: r => if p c then c :: take_while p r else []
  end.

Fixpoint drop_while (p : N -> bool) (s : pystr) : pystr :=
  match s with
  | [] => []
  | c :: r => if p c then drop_while p r else s
  end.

Record ParseResult : Type := mkParseResult {
  scheme : pystr;
  netloc : pystr;
  path : pystr;
  params : pystr;
  query : pystr;
  fragment : pystr
}.

(** [scheme_chars]: letters, digits, [+], [-] and [.] *)
Definition is_scheme_char (c : N) : bool :=
  is_ascii_alpha c || is_digit c ||
  (c =? chr "+") || (c =? chr "-") || (c =? chr ".").

Definition uses_params : list pystr :=
  str <$> [""; "ftp"; "hdl"; "prospero"; "http"; "imap"; "https"; "shttp";
           "rtsp"; "rtspu"; "sip"; "sips"; "mms"; "sftp"; "tel"]%string.

(** [_WHATWG_C0_CONTROL_OR_SPACE]: the characters up to and including the
    space are stripped on the left. *)
Definition lstrip_c0 (s : pystr) : pystr := drop_while (fun c => c <=? 32) s.

(** [_UNSAFE_URL_BYTES_TO_REMOVE]: tab, line feed and carriage return are
    removed wherever they stand. *)
Definition is_unsafe_url_char (c : N) : bool :=
  (c =? 9) || (c =? 10) || (c =? 13).

Definition remove_unsafe (s : pystr) : pystr :=
  List.filter (fun c => negb (is_unsafe_url_char c)) s.

Definition is_netloc_delim (c : N) : bool :=
  (c =? chr "/") || (c =? chr "?") || (c =? chr "#").

(** [_splitnetloc(url, 2)], on the text after the two slashes. *)
Definition splitnetloc (rest : pystr) : pystr * pystr :=
  (take_while (fun c => negb (is_netloc_delim c)) rest,
   drop_while (fun c => negb (is_netloc_delim c)) rest).

(** Host validation. A host with one bracket only is refused. A bracketed
    host goes through [_check_bracketed_host] and a host outside ASCII
    through the NFKC test of [_checknetloc]; both consult address and Unicode
    tables, and are the parameter [lib_check] here. *)
Definition netloc_ok (lib_check : pystr -> bool) (h : pystr) : bool :=
  let lb := has_char (chr "[") h in
  let rb := has_char (chr "]") h in
  if xorb lb rb then false
  else if lb || negb (forallb isascii h) then lib_check h
  else true.

Definition split_scheme (url : pystr) : pystr * pystr :=
  match cut (chr ":") url with
  | Some (c :: pre, post) =>
      if isascii c && is_ascii_alpha c && forallb is_scheme_char (c :: pre)
      then (lower (c :: pre), post)
      else ([], url)
  | _ => ([], url)
  end.

(** [url.split(c, 1)] guarded by [c in url]. *)
Definition cut_or (c : N) (url : pystr) : pystr * pystr :=
  match cut c url with
  | Some (a, b) => (a, b)
  | None => (url, [])
  end.

Definition urlsplit (lib_check : pystr -> bool) (url0 : pystr)
  : Result ParseResult :=
  let url := remove_unsafe (lstrip_c0 url0) in
  let '(sch, url) := split_scheme url in
  let '(net, url) :=
    if startswith url (str "//") then splitnetloc (drop 2 url)
    else ([], url) in
  if negb (netloc_ok lib_check net) then Raise ValueError
  else
    let '(url, frag) := cut_or (chr "#") url in
    let '(url, qry) := cut_or (chr "?") url in
    Return (mkParseResult sch net url [] qry frag).

(** The text up to and including the last [/], and the segment after it. *)
Fixpoint rsplit_slash (url : pystr) : pystr * pystr :=
  match url with
  | [] => ([], [])
  | c :: r =>
      if has_char (chr "/") r then
        let '(d, seg) := rsplit_slash r in (c :: d, seg)
      else if c =? chr "/" then ([c], r)
      else ([], c :: r)
  end.

(** [_splitparams]: the parameters start at the first [;] of the last path
    segment. *)
Definition splitparams (url : pystr) : pystr * pystr :=
  let '(d, seg) := rsplit_slash url in
  match cut (chr ";") seg with
  | Some (a, b) => (d ++ a, b)
  | None => (url, [])
  end.

Definition urlparse (lib_check : pystr -> bool) (url : pystr)
  : Result ParseResult :=
  rbind (urlsplit lib_check url) (fun r =>
    if bool_decide (scheme r ∈ uses_params) && has_char (chr ";") (path r)
    then
      let '(p, prm) := splitparams (path r) in
      Return (mkParseResult (scheme r) (netloc r) p prm (query r) (fragment r))
    else Return r).

(** *** Percent-encoding and UTF-8 *)

Definition hexval (c : N) : option N :=
  if is_digit c then Some (c - 48)
  else if in_range 65 70 c then Some (c - 55)
  else if in_range 97 102 c then Some (c - 87)
  else None.

(** Upper-case hexadecimal digit, as [quote] writes it. *)
Definition hexdigit (d : N) : N := if d <? 10 then 48 + d else 55 + d.

(** [unquote_to_bytes] on an ASCII run: [%XX] with two hexadecimal digits is
    a byte, any other [%] stands for itself. *)
Fixpoint unquote_to_bytes (s : list N) : list N :=
  match s with
  | [] => []
  | c :: r =>
      if c =? chr "%" then
        match r with
        | h1 :: h2 :: r2 =>
            match hexval h1, hexval h2 with
            | Some a, Some b => (16 * a + b) :: unquote_to_bytes r2
            | _, _ => c :: unquote_to_bytes r
            end
        | _ => c :: unquote_to_bytes r
        end
      else c :: unquote_to_bytes r
  end.

(** U+FFFD, what [errors='replace'] writes for undecodable bytes. *)
Definition REPLACEMENT : N := 65533.

Definition is_cont (b : N) : bool := in_range 128 191 b.

(** The second byte of a three-byte sequence: E0 excludes overlong forms and
    ED the surrogates. *)
Definition second3_ok (b b2 : N) : bool :=
  is_cont b2 && negb (if b2 <? 160 then b =? 224 else b =? 237).

(** The second byte of a four-byte sequence: F0 excludes overlong forms and
    F4 the values above U+10FFFF. *)
Definition second4_ok (b b2 : N) : bool :=
  is_cont b2 && negb (if b2 <? 144 then b =? 240 else b =? 244).

(** [bytes.decode('utf-8', 'replace')]: each maximal ill-formed prefix
    becomes one U+FFFD and decoding resumes at the offending byte. *)
Fixpoint utf8_decode (bs : list N) : pystr :=
  match bs with
  | [] => []
  | b :: r =>
      if b <? 128 then b :: utf8_decode r
      else if in_range 194 223 b then
        match r with
        | [] => [REPLACEMENT]
        | b2 :: r2 =>
            if is_cont b2 then ((b - 192) * 64 + (b2 - 128)) :: utf8_decode r2
            else REPLACEMENT :: utf8_decode r
        end
      else if in_range 224 239 b then
        match r with
        | [] => [REPLACEMENT]
        | b2 :: r2 =>
            if second3_ok b b2 then
              match r2 with
              | [] => [REPLACEMENT]
              | b3 :: r3 =>
                  if is_cont b3 then
                    ((b - 224) * 4096 + (b2 - 128) * 64 + (b3 - 128))
                      :: utf8_decode r3
                  else REPLACEMENT :: utf8_decode r2
              end
            else REPLACEMENT :: utf8_decode r
        end
      else if in_range 240 244 b then
        match r with
        | [] => [REPLACEMENT]
        | b2 :: r2 =>
            if second4_ok b b2 then
              match r2 with
              | [] => [REPLACEMENT]
              | b3 :: r3 =>
                  if is_cont b3 then
                    match r3 with
                    | [] => [REPLACEMENT]
                    | b4 :: r4 =>
                        if is_cont b4 then
                          ((b - 240) * 262144 + (b2 - 128) * 4096
                           + (b3 - 128) * 64 + (b4 - 128)) :: utf8_decode r4
                        else REPLACEMENT :: utf8_decode r3
                    end
                  else REPLACEMENT :: utf8_decode r2
              end
            else REPLACEMENT :: utf8_decode r
        end
      else REPLACEMENT :: utf8_decode r
  end.

(** [str.encode('utf-8')], strict: a surrogate (or a value that is no code
    point) raises. *)
Definition utf8_encode_char (c : N) : Result (list N) :=
  if c <? 128 then Return [c]
  else if c <? 2048 then Return [192 + c / 64; 128 + c mod 64]
  else if c <? 65536 then
    if in_range 55296 57343 c then Raise UnicodeEncodeError
    else Return [224 + c / 4096; 128 + (c / 64) mod 64; 128 + c mod 64]
  else if c <? 1114112 then
    Return [240 + c / 262144; 128 + (c / 4096) mod 64;
            128 + (c / 64) mod 64; 128 + c mod 64]
  else Raise UnicodeEncodeError.

Definition utf8_encode (s : pystr) : Result (list N) :=
  rbind (rmapM utf8_encode_char s) (fun bs => Return (concat bs)).

(** [unquote(string, 'utf-8', 'replace')]: each maximal run of ASCII
    characters is percent-decoded and read as UTF-8; the characters outside
    ASCII stand for themselves. [run] is the ASCII run read so far. *)
Definition unquote_flush (run : list N) : pystr :=
  utf8_decode (unquote_to_bytes run).

Fixpoint unquote_parts (run : list N) (s : pystr) : pystr :=
  match s with
  | [] => unquote_flush run
  | c :: r =>
      if isascii c then unquote_parts (run ++ [c]) r
      else unquote_flush run ++ c :: unquote_parts [] r
  end.

Definition unquote (s : pystr) : pystr :=
  if has_char (chr "%") s then unquote_parts [] s else s.

(** [_ALWAYS_SAFE]: letters, digits and [_.-~] *)
Definition always_safe (b : N) : bool :=
  is_ascii_alpha b || is_digit b ||
  (b =? chr "_") || (b =? chr ".") || (b =? chr "-") || (b =? chr "~").

(** [quote_from_bytes], with the extra safe bytes [safe]. *)
Definition quote_byte (safe : N -> bool) (b : N) : list N :=
  if always_safe b || safe b then [b]
  else [chr "%"; hexdigit (b / 16); hexdigit (b mod 16)].

Definition quote (safe : N -> bool) (s : pystr) : Result pystr :=
  rbind (utf8_encode s) (fun bs => Return (bs ≫= quote_byte safe)).

(** [quote_plus(string)]: the space is kept by [quote] and then written
    [+]. *)
Definition quote_plus (s : pystr) : Result pystr :=
  if has_char (chr " ") s then
    rbind (quote (fun b => b =? chr " ") s) (fun q =>
      Return (replace_char (chr " ") [chr "+"] q))
  else quote (fun _ => false) s.

(** *** Query strings *)

(** One field of [parse_qsl(qs, keep_blank_values=True)]: a field without
    [=] has an empty value. *)
Definition parse_field (name_value : pystr) : pystr * pystr :=
  let '(n, v) := cut_or (chr "=") name_value in
  (unquote (replace_char (chr "+") [chr " "] n),
   unquote (replace_char (chr "+") [chr " "] v)).

(** [parse_qsl(qs, keep_blank_values=True)]: empty fields are skipped. *)
Definition parse_qsl (qs : pystr) : list (pystr * pystr) :=
  parse_field <$>
    List.filter (fun f => negb (bool_decide (f = []))) (split_on (chr "&") qs).

(** [parse_qs]: the values of a name are collected in order of appearance. *)
Definition parse_qs_step (m : gmap pystr (list pystr)) (nv : pystr * pystr)
  : gmap pystr (list pystr) :=
  match m !! nv.1 with
  | Some vs => <[nv.1 := vs ++ [nv.2]]> m
  | None => <[nv.1 := [nv.2]]> m
  end.

Definition parse_qs (qs : pystr) : gmap pystr (list pystr) :=
  foldl parse_qs_step ∅ (parse_qsl qs).

(** [sorted]: a stable sort, written as a stable insertion sort. [x] comes
    from before the elements of [s] in the input, so it goes in front of the
    first element that is not smaller. *)
Fixpoint insort {A} (lt : A -> A -> bool) (x : A) (s : list A) : list A :=
  match s with
  | [] => [x]
  | y :: s' => if lt y x then y :: insort lt x s' else x :: s
  end.

Definition py_sorted {A} (lt : A -> A -> bool) (l : list A) : list A :=
  foldr (insort lt) [] l.

(** [sorted(..., reverse=True)] keeps equal elements in their input order:
    CPython reverses, sorts and reverses. *)
Definition py_sorted_reverse {A} (lt : A -> A -> bool) (l : list A) : list A :=
  reverse (py_sorted lt (reverse l)).

(** Lists of strings, and the [(name, values)] tuples of [dict.items()],
    compare lexicographically. *)
Fixpoint strs_lt (a b : list pystr) : bool :=
  match a, b with
  | _, [] => false
  | [], _ :: _ => true
  | x :: a', y :: b' => if bool_decide (x = y) then strs_lt a' b' else str_lt x y
  end.

Definition item_lt (a b : pystr * list pystr) : bool :=
  if bool_decide (a.1 = b.1) then strs_lt a.2 b.2 else str_lt a.1 b.1.

(** [urlencode(query, doseq=True)] on a sequence of [(name, values)]. *)
Definition urlencode_item (kv : pystr * list pystr) : Result (list pystr) :=
  rbind (quote_plus kv.1) (fun k =>
    rmapM (fun elt => rbind (quote_plus elt) (fun e =>
             Return (k ++ chr "=" :: e))) kv.2).

Definition urlencode (items : list (pystr * list pystr)) : Result pystr :=
  rbind (rmapM urlencode_item items) (fun l =>
    Return (join (chr "&") (concat l))).

(** ** [normalize_url] (lines 255-268) *)

Definition strip_trailing_slash (normalized : pystr) : pystr :=
  if endswith_char normalized (chr "/")
     && bool_decide (3 < count_char (chr "/") normalized)%nat
  then drop_last normalized
  else normalized.

Definition normalize_url (lib_check : pystr -> bool) (url : pystr)
  : Result pystr :=
  rbind (urlparse lib_check url) (fun parsed =>
    let normalized := scheme parsed ++ str "://" ++ netloc parsed ++ path parsed in
    rbind
      (if bool_decide (query parsed = []) then Return normalized
       else
         let query_params := parse_qs (query parsed) in
         rbind (urlencode (py_sorted item_lt (map_to_list query_params)))
           (fun sorted_query =>
              Return (normalized ++ chr "?" :: sorted_query)))
      (fun normalized => Return (strip_trailing_slash normalized))).

(** ** [clean_text] (lines 270-291) *)

(** [\s] of a [str] pattern, which is also what [str.strip()] removes. *)
Definition is_space (c : N) : bool :=
  in_range 9 13 c || in_range 28 32 c || (c =? 133) || (c =? 160) ||
  (c =? 5760) || in_range 8192 8202 c || in_range 8232 8233 c ||
  (c =? 8239) || (c =? 8287) || (c =? 12288).

Definition NL : N := 10.

(** Where [\n\s*\n\s*\n+] matches at the head of [s], the length of the
    match: the pattern is greedy, so the match runs from the line feed at
    the head to the last line feed of the white space that follows it, and
    it needs three line feeds. *)
Definition blank_lines_match (s : pystr) : option nat :=
  match s with
  | c :: _ =>
      if c =? NL then
        let run := take_while is_space s in
        if bool_decide (3 <= count_char NL run)%nat then
          let tail := take_while (fun x => negb (x =? NL)) (reverse run) in
          Some (List.length run - List.length tail)%nat
        else None
      else None
  | [] => None
  end.

(** [re.sub(r'\n\s*\n\s*\n+', '\n\n', text)]; [skip] characters of a match
    remain to be passed over. *)
Fixpoint sub_blank_lines (skip : nat) (s : pystr) : pystr :=
  match s with
  | [] => []
  | c :: r =>
      match skip with
      | S k => sub_blank_lines k r
      | O =>
          match blank_lines_match s with
          | Some n => NL :: NL :: sub_blank_lines (n - 1) r
          | None => c :: sub_blank_lines 0 r
          end
      end
  end.

(** [re.sub(c0 + '+', ' ', text)]: each run of [c0] becomes one space;
    [prev] tells that the previous character was in the run. *)
Fixpoint sub_runs (c0 : N) (prev : bool) (s : pystr) : pystr :=
  match s with
  | [] => []
  | c :: r =>
      if c =? c0 then
        if prev then sub_runs c0 true r else chr " " :: sub_runs c0 true r
      else c :: sub_runs c0 false r
  end.

(** The characters the class [[^\x20-\x7E\n\tÀ-ſḀ-ỿ]]
    leaves in place. *)
Definition is_permitted (c : N) : bool :=
  in_range 32 126 c || (c =? 10) || (c =? 9) ||
  in_range 192 383 c || in_range 7680 7935 c.

Definition strip_unpermitted (s : pystr) : pystr := List.filter is_permitted s.

(** The table [replacements], in the order of the dictionary. *)
Definition replacements : list (N * pystr) :=
  [ (8217, str "'"); (8216, str "'"); (8220, [34]); (8221, [34]);
    (8211, str "-"); (8212, str "--"); (160, str " ") ].

Definition apply_replacements (s : pystr) : pystr :=
  foldl (fun text '(old, new) => replace_char old new text) s replacements.

(** [str.strip()] *)
Definition strip (s : pystr) : pystr :=
  reverse (drop_while is_space (reverse (drop_while is_space s))).

Definition clean_text (text : pystr) : pystr :=
  match text with
  | [] => []
  | _ =>
      let text := sub_blank_lines 0 text in
      let text := sub_runs (chr " ") false text in
      let text := sub_runs 9 false text in
      let text := strip_unpermitted text in
      let text := apply_replacements text in
      strip text
  end.

(** ** JSON values and records

    What [json.loads] returns, floats apart. The analysis of a page is a
    dictionary from field names to such values. *)

Local Unset Elimination Schemes.
Inductive json : Type :=
  | JNull
  | JBool (b : bool)
  | JInt (z : Z)
  | JStr (s : pystr)
  | JList (l : list json)
  | JDict (d : gmap pystr json).
Local Set Elimination Schemes.

Abbreviation analysis_dict := (gmap pystr json).

(** [d.get(key, dflt)] *)
Definition dict_get (d : analysis_dict) (key : string) (dflt : json) : json :=
  default dflt (d !! str key).

(** The entries of [multilingual_content]. *)
Record Entry : Type := mkEntry {
  filepath : pystr;
  content : pystr;
  analysis : analysis_dict
}.

(** ** [analyze_content_with_ai] (lines 131-192) *)

(** [content[:200] + "..." if len(content) > 200 else content] *)
Definition default_summary (content : pystr) : pystr :=
  if bool_decide (200 < List.length content)%nat
  then take 200 content ++ str "..."
  else content.

Definition default_analysis (content : pystr) : analysis_dict :=
  <[str "language" := JStr (str "unknown")]>
  (<[str "category" := JStr (str "general")]>
  (<[str "summary" := JStr (default_summary content)]>
  (<[str "keywords" := JList []]>
  (<[str "importance_score" := JInt 5]> ∅)))).

(** [try: body except Exception: handler], for a body without effect on the
    scraper. *)
Definition try_except {A} (body : Result A) (handler : exn -> Result A)
  : Result A :=
  match body with
  | Return a => Return a
  | Raise e => handler e
  end.

(** The chat-completion client: given the URL, the title and the excerpt
    that make the prompt, the text of the first choice, or the exception of
    the call. The number is the count of pages requested so far: the service
    need not answer the same way twice. *)
Definition Client : Type := nat -> pystr -> pystr -> pystr -> Result pystr.

(** [ai_analysis.get(...)] on what [json.loads] returned: only a dictionary
    has the method. *)
Definition as_dict (j : json) : Result analysis_dict :=
  match j with
  | JDict d => Return d
  | _ => Raise AttributeError
  end.

Definition analyze_content_with_ai
    (openai_client : option Client) (json_loads : pystr -> Result json)
    (tick : nat) (content url title : pystr) : Result analysis_dict :=
  match openai_client with
  | None => Return (default_analysis content)
  | Some create =>
      try_except
        (rbind (create tick url title (take 3000 content)) (fun reply =>
         rbind (json_loads reply) (fun ai_analysis =>
         rbind (as_dict ai_analysis) (fun d => Return d))))
        (fun _ => Return (default_analysis content))
  end.

(** ** The scraper object and its environment *)

(** The response headers [get_page_content] reads. *)
Record Headers : Type := mkHeaders {
  content_type_header : option pystr;
  content_length_header : option pystr
}.

(** [response.iter_content(...)]: chunks, until the body ends or the
    connection raises. *)
Inductive Stream : Type :=
  | StreamEnd
  | StreamChunk (chunk : list N) (rest : Stream)
  | StreamError (e : exn).

(** What the HTML parser gives once the unwanted elements are decomposed:
    [soup.title.string] if there is one, [soup.get_text()] and the [href] of
    every anchor that has one. *)
Record Soup : Type := mkSoup {
  soup_title : option pystr;
  soup_text : pystr;
  soup_hrefs : list pystr
}.

(** The progress file [scraping_progress.json]. *)
Record Snapshot : Type := mkSnapshot {
  snap_visited_urls : list pystr;
  snap_urls_to_visit : list pystr;
  snap_pages_scraped : Z;
  snap_last_updated : pystr;
  snap_multilingual_stats : gmap pystr nat
}.

Inductive ProgressFile : Type :=
  | Absent
  | Unreadable
  | Stored (s : Snapshot).

(** The file [ai_scraping_summary.json]. *)
Record Summary : Type := mkSummary {
  total_pages_scraped : nat;
  summary_failed_urls : list pystr;
  scraped_urls : list pystr;
  page_count : gmap pystr nat
}.

(** The fields of [AIWebScraper] that change during a run, together with
    the files of the output directories and a log of the calls of
    [get_page_content] ([fetched], newest first). *)
Record Scraper : Type := mkScraper {
  visited_urls : gset pystr;
  failed_urls : list pystr;
  multilingual_content : gmap pystr (list Entry);
  fetched : list pystr;
  page_files : list (pystr * pystr);
  progress_file : ProgressFile;
  summary_file : option Summary;
  final_txt : gmap pystr (list Entry);
  final_pdf : gmap pystr (list Entry)
}.

(** The fields set once by [__init__]. *)
Record Config : Type := mkConfig {
  base_url : pystr;
  domain : pystr;
  max_file_size : Z;
  openai_client : option Client;
  HAS_REPORTLAB : bool
}.

(** Everything outside the program: the network, the parsers of the
    libraries, the clock and the file system. The first argument of the
    operations that may answer differently over time is the number of pages
    requested so far. *)
Record World : Type := mkWorld {
  lib_check : pystr -> bool;
  urljoin : pystr -> pystr -> Result pystr;
  robots_can_fetch : pystr -> bool;
  session_head : nat -> pystr -> Result Headers;
  session_get : nat -> pystr -> Result Stream;
  BeautifulSoup : list N -> Result Soup;
  json_loads : pystr -> Result json;
  now_isoformat : nat -> pystr;
  write_page : nat -> pystr -> pystr -> analysis_dict -> Result pystr;
  write_progress : nat -> Snapshot -> Result unit;
  write_summary : nat -> Summary -> Result unit;
  write_txt : nat -> pystr -> list Entry -> Result unit;
  write_pdf : nat -> pystr -> list Entry -> Result unit;
  remove_progress : nat -> Result unit
}.

(** *** Statements: a state and exception monad

    An exception leaves the changes made before it in place. *)

Definition M (A : Type) : Type := Scraper -> Result A * Scraper.

Definition ret {A} (a : A) : M A := fun s => (Return a, s).
Definition raise {A} (e : exn) : M A := fun s => (Raise e, s).

Definition bind {A B} (m : M A) (k : A -> M B) : M B :=
  fun s =>
    match m s with
    | (Return a, s') => k a s'
    | (Raise e, s') => (Raise e, s')
    end.

Definition lift {A} (r : Result A) : M A := fun s => (r, s).
Definition gets {A} (f : Scraper -> A) : M A := fun s => (Return (f s), s).
Definition modify (f : Scraper -> Scraper) : M unit := fun s => (Return tt, f s).

(** [try: body except Exception as e: handler] *)
Definition try_catch {A} (body : M A) (handler : exn -> M A) : M A :=
  fun s =>
    match body s with
    | (Return a, s') => (Return a, s')
    | (Raise e, s') => handler e s'
    end.

Declare Scope py_scope.
Delimit Scope py_scope with py.
Notation "x <- c ;; k" := (bind c (fun x => k))
  (at level 100, c at next level, right associativity) : py_scope.
Notation "'run' c ;; k" := (bind c (fun _ => k))
  (at level 100, c at next level, right associativity) : py_scope.
Local Open Scope py_scope.

Definition set_visited_urls (v : gset pystr) (s : Scraper) : Scraper :=
  mkScraper v (failed_urls s) (multilingual_content s) (fetched s)
    (page_files s) (progress_file s) (summary_file s) (final_txt s) (final_pdf s).
Definition set_failed_urls (f : list pystr) (s : Scraper) : Scraper :=
  mkScraper (visited_urls s) f (multilingual_content s) (fetched s)
    (page_files s) (progress_file s) (summary_file s) (final_txt s) (final_pdf s).
Definition set_multilingual_content (m : gmap pystr (list Entry)) (s : Scraper)
  : Scraper :=
  mkScraper (visited_urls s) (failed_urls s) m (fetched s)
    (page_files s) (progress_file s) (summary_file s) (final_txt s) (final_pdf s).
Definition set_fetched (l : list pystr) (s : Scraper) : Scraper :=
  mkScraper (visited_urls s) (failed_urls s) (multilingual_content s) l
    (page_files s) (progress_file s) (summary_file s) (final_txt s) (final_pdf s).
Definition set_page_files (l : list (pystr * pystr)) (s : Scraper) : Scraper :=
  mkScraper (visited_urls s) (failed_urls s) (multilingual_content s) (fetched s)
    l (progress_file s) (summary_file s) (final_txt s) (final_pdf s).
Definition set_progress_file (p : ProgressFile) (s : Scraper) : Scraper :=
  mkScraper (visited_urls s) (failed_urls s) (multilingual_content s) (fetched s)
    (page_files s) p (summary_file s) (final_txt s) (final_pdf s).
Definition set_summary_file (p : option Summary) (s : Scraper) : Scraper :=
  mkScraper (visited_urls s) (failed_urls s) (multilingual_content s) (fetched s)
    (page_files s) (progress_file s) p (final_txt s) (final_pdf s).
Definition set_final_txt (m : gmap pystr (list Entry)) (s : Scraper) : Scraper :=
  mkScraper (visited_urls s) (failed_urls s) (multilingual_content s) (fetched s)
    (page_files s) (progress_file s) (summary_file s) m (final_pdf s).
Definition set_final_pdf (m : gmap pystr (list Entry)) (s : Scraper) : Scraper :=
  mkScraper (visited_urls s) (failed_urls s) (multilingual_content s) (fetched s)
    (page_files s) (progress_file s) (summary_file s) (final_txt s) m.

(** The object [__init__] builds (lines 72-78), in an output directory
    whose progress file is [disk]. *)
Definition new_scraper (disk : ProgressFile) : Scraper :=
  mkScraper ∅ []
    (<[str "english" := []]> (<[str "french" := []]>
      (<[str "portuguese" := []]> ∅)))
    [] [] disk None ∅ ∅.

Fixpoint for_each {A} (l : list A) (body : A -> M unit) : M unit :=
  match l with
  | [] => ret tt
  | x :: r => run body x ;; for_each r body
  end.

(** ** [get_page_content] (lines 293-359) *)

(** [int(s)] on the text of a header: white space around, a sign, and
    decimal digits that single underscores may separate. *)
Fixpoint int_digits (acc : Z) (after_digit : bool) (s : pystr) : Result Z :=
  match s with
  | [] => if after_digit then Return acc else Raise ValueError
  | c :: r =>
      if is_digit c then int_digits (10 * acc + Z.of_N (c - 48)) true r
      else if (c =? chr "_") && after_digit then int_digits acc false r
      else Raise ValueError
  end.

Definition py_int (s : pystr) : Result Z :=
  match strip s with
  | c :: r =>
      if c =? chr "-" then rbind (int_digits 0 false r) (fun z => Return (- z)%Z)
      else if c =? chr "+" then int_digits 0 false r
      else int_digits 0 false (c :: r)
  | [] => Raise ValueError
  end.

(** [content_length and int(content_length) > self.max_file_size] *)
Definition declared_too_large (max_size : Z) (content_length : option pystr)
  : Result bool :=
  match content_length with
  | None | Some [] => Return false
  | Some s => rbind (py_int s) (fun n => Return (max_size <? n)%Z)
  end.

Definition html_types : list pystr :=
  [str "text/html"; str "text/plain"; str "application/xhtml"].

(** The download loop of lines 324-329: [content] is what was read so far;
    [None] is the early return on a body over the limit. *)
Fixpoint read_body (max_size : Z) (content : list N) (response : Stream)
  : Result (option (list N)) :=
  match response with
  | StreamEnd => Return (Some content)
  | StreamError e => Raise e
  | StreamChunk chunk rest =>
      let content := content ++ chunk in
      if (max_size <? Z.of_nat (List.length content))%Z then Return None
      else read_body max_size content rest
  end.

Abbreviation page_result :=
  (option pystr * option Soup * option analysis_dict)%type.

Definition get_page_content (W : World) (cfg : Config) (url : pystr)
  : M page_result :=
  tick <- gets (fun s => List.length (fetched s)) ;;
  run modify (fun s => set_fetched (url :: fetched s) s) ;;
  if negb (robots_can_fetch W url) then ret (None, None, None)
  else
    try_catch
      (head_response <- lift (session_head W tick url) ;;
       let content_type :=
         lower (default [] (content_type_header head_response)) in
       if negb (existsb (contains content_type) html_types)
       then ret (None, None, None)
       else
         too_large <- lift (declared_too_large (max_file_size cfg)
                              (content_length_header head_response)) ;;
         if too_large : bool then ret (None, None, None)
         else
           response <- lift (session_get W tick url) ;;
           body <- lift (read_body (max_file_size cfg) [] response) ;;
           match body with
           | None => ret (None, None, None)
           | Some content =>
               soup <- lift (BeautifulSoup W content) ;;
               let title := strip (default [] (soup_title soup)) in
               let text_content := clean_text (soup_text soup) in
               ai_analysis <- lift (analyze_content_with_ai (openai_client cfg)
                                      (json_loads W) tick text_content url title) ;;
               let ai_analysis := <[str "title" := JStr title]> ai_analysis in
               let ai_analysis := <[str "url" := JStr url]> ai_analysis in
               let ai_analysis :=
                 <[str "scraped_at" := JStr (now_isoformat W tick)]> ai_analysis in
               ret (Some text_content, Some soup, Some ai_analysis)
           end)
      (fun _ =>
         run modify (fun s => set_failed_urls (failed_urls s ++ [url]) s) ;;
         ret (None, None, None)).

(** ** [extract_links] (lines 361-384) *)

Definition skipped_prefixes : list pystr :=
  [str "mailto:"; str "tel:"; str "javascript:"; str "#"].

Definition link_of (W : World) (cfg : Config) (current_url href : pystr)
  : Result (list pystr) :=
  if existsb (startswith href) skipped_prefixes then Return []
  else
    rbind (urljoin W current_url href) (fun absolute_url =>
    rbind (urlparse (lib_check W) absolute_url) (fun parsed =>
      if bool_decide (netloc parsed = domain cfg) then
        rbind (normalize_url (lib_check W) absolute_url) (fun clean_url =>
          Return [clean_url])
      else Return [])).

(** [list(set(links))]: each link once, in the order of the set. *)
Definition extract_links (W : World) (cfg : Config) (soup : Soup)
    (current_url : pystr) : Result (list pystr) :=
  rbind (rmapM (link_of W cfg current_url) (soup_hrefs soup)) (fun links =>
    Return (elements (list_to_set (C := gset pystr) (concat links)))).

(** ** [save_page_content] (lines 386-454) *)

(** Lines 436-451: where a record goes. A list or a dictionary cannot be
    looked up in a dictionary. *)
Definition file_record (language : json) (e : Entry)
    (m : gmap pystr (list Entry)) : Result (gmap pystr (list Entry)) :=
  match language with
  | JList _ | JDict _ => Raise TypeError
  | JStr l =>
      match m !! l with
      | Some bucket => Return (<[l := bucket ++ [e]]> m)
      | None =>
          if bool_decide (l = str "mixed")
          then Return ((fun bucket => bucket ++ [e]) <$> m)
          else Return m
      end
  | JNull | JBool _ | JInt _ => Return m
  end.

(** Lines 388-434, the name of the file and the two files written, are the
    operation [write_page] of the environment, which returns the path. *)
Definition save_page_content (W : World) (content : pystr)
    (ai_analysis : analysis_dict) : M pystr :=
  match ai_analysis !! str "url" with
  | Some (JStr url) =>
      tick <- gets (fun s => List.length (fetched s)) ;;
      filepath <- lift (write_page W tick url content ai_analysis) ;;
      run modify (fun s => set_page_files (page_files s ++ [(filepath, url)]) s) ;;
      let language := dict_get ai_analysis "language" (JStr (str "unknown")) in
      buckets <- gets multilingual_content ;;
      buckets <- lift (file_record language
                         (mkEntry filepath content ai_analysis) buckets) ;;
      run modify (set_multilingual_content buckets) ;;
      ret filepath
  | Some _ => raise TypeError
  | None => raise KeyError
  end.

(** ** The order of the per-language documents (lines 615-619, 707-711) *)

(** The key [(importance_score, category)] of the [sorted] call, for the
    scores that are integers and the categories that are strings; any other
    pair of values is outside this model ([None]). *)
Definition sort_key (e : Entry) : option (Z * pystr) :=
  match dict_get (analysis e) "importance_score" (JInt 5),
        dict_get (analysis e) "category" (JStr (str "zzz")) with
  | JInt score, JStr category => Some (score, category)
  | _, _ => None
  end.

(** Tuples compare on the first component that differs. *)
Definition key_lt (a b : Z * pystr) : bool :=
  if (a.1 =? b.1)%Z then str_lt a.2 b.2 else (a.1 <? b.1)%Z.

Fixpoint with_keys (l : list Entry) : option (list ((Z * pystr) * Entry)) :=
  match l with
  | [] => Some []
  | e :: r =>
      match sort_key e, with_keys r with
      | Some k, Some kr => Some ((k, e) :: kr)
      | _, _ => None
      end
  end.

(** [sorted(content_list, key=..., reverse=True)] *)
Definition sorted_content (content_list : list Entry) : option (list Entry) :=
  match with_keys content_list with
  | Some keyed =>
      Some (snd <$> py_sorted_reverse (fun a b => key_lt a.1 b.1) keyed)
  | None => None
  end.

Definition output_name (language ext : pystr) : pystr :=
  str "final_output/mozambique_embassy_complete_content_" ++ language ++ ext.

(** [_generate_language_txt] (lines 612-699): the sections are written in
    the order of [sorted_content]; whatever goes wrong is caught and gives
    [None]. The texts of the header, of the table of contents and of the
    sections, and the translation of the bodies, leave the order alone and
    are not modelled. *)
Definition _generate_language_txt (W : World) (language : pystr)
    (content_list : list Entry) : M (option pystr) :=
  match sorted_content content_list with
  | None => ret None
  | Some sections =>
      tick <- gets (fun s => List.length (fetched s)) ;;
      try_catch
        (run lift (write_txt W tick language sections) ;;
         run modify (fun s => set_final_txt (<[language := sections]> (final_txt s)) s) ;;
         ret (Some (output_name language (str ".txt"))))
        (fun _ => ret None)
  end.

(** [_generate_language_pdf] (lines 701-820), likewise. *)
Definition _generate_language_pdf (W : World) (cfg : Config) (language : pystr)
    (content_list : list Entry) : M (option pystr) :=
  if negb (HAS_REPORTLAB cfg) then ret None
  else
    match sorted_content content_list with
    | None => ret None
    | Some sections =>
        tick <- gets (fun s => List.length (fetched s)) ;;
        try_catch
          (run lift (write_pdf W tick language sections) ;;
           run modify (fun s => set_final_pdf (<[language := sections]> (final_pdf s)) s) ;;
           ret (Some (output_name language (str ".pdf"))))
          (fun _ => ret None)
    end.

(** The keys of [multilingual_content], in the order of the dictionary. *)
Definition languages : list pystr :=
  [str "english"; str "french"; str "portuguese"].

(** [generate_multilingual_outputs] (lines 583-610) *)
Definition generate_multilingual_outputs (W : World) (cfg : Config) : M unit :=
  for_each languages (fun language =>
    buckets <- gets multilingual_content ;;
    match buckets !! language with
    | None | Some [] => ret tt
    | Some content_list =>
        run _generate_language_txt W language content_list ;;
        if HAS_REPORTLAB cfg then
          run _generate_language_pdf W cfg language content_list ;; ret tt
        else ret tt
    end).

(** ** Checkpoints and the summary (lines 544-581) *)

Definition _save_progress (W : World) (urls_to_visit : list pystr)
    (pages_scraped : Z) : M unit :=
  tick <- gets (fun s => List.length (fetched s)) ;;
  visited <- gets visited_urls ;;
  buckets <- gets multilingual_content ;;
  let progress :=
    mkSnapshot (elements visited) urls_to_visit pages_scraped
      (now_isoformat W tick) (List.length <$> buckets) in
  run lift (write_progress W tick progress) ;;
  modify (set_progress_file (Stored progress)).

Definition save_summary (W : World) : M unit :=
  tick <- gets (fun s => List.length (fetched s)) ;;
  visited <- gets visited_urls ;;
  failed <- gets failed_urls ;;
  buckets <- gets multilingual_content ;;
  let summary :=
    mkSummary (size visited) failed (elements visited) (List.length <$> buckets) in
  run lift (write_summary W tick summary) ;;
  modify (set_summary_file (Some summary)).

(** ** [scrape_website] (lines 456-542) *)

(** The local variables of the loop. *)
Record Locals : Type := mkLocals {
  urls_to_visit : list pystr;
  pages_scraped : Z;
  batch_count : Z
}.

(** Lines 468-479: a readable progress file replaces the visited set, the
    queue and the count. *)
Definition load_progress (cfg : Config) : M Locals :=
  disk <- gets progress_file ;;
  match disk with
  | Stored progress =>
      run modify (set_visited_urls (list_to_set (snap_visited_urls progress))) ;;
      ret (mkLocals (snap_urls_to_visit progress) (snap_pages_scraped progress) 0)
  | Absent | Unreadable => ret (mkLocals [base_url cfg] 0 0)
  end.

(** Lines 503-505 *)
Fixpoint add_links (visited : gset pystr) (queue new_links : list pystr)
  : list pystr :=
  match new_links with
  | [] => queue
  | link :: r =>
      if bool_decide (link ∉ visited) && bool_decide (link ∉ queue)
      then add_links visited (queue ++ [link]) r
      else add_links visited queue r
  end.

(** The test [content and soup and ai_analysis]: an empty text is false, a
    parsed document is true, a dictionary is true unless empty. *)
Definition truthy (r : page_result) : option (pystr * Soup * analysis_dict) :=
  match r with
  | (Some content, Some soup, Some ai_analysis) =>
      if bool_decide (content = []) || bool_decide (ai_analysis = ∅) then None
      else Some (content, soup, ai_analysis)
  | _ => None
  end.

(** Lines 487-510, for a URL that is not yet visited: the page is
    processed, its links join the queue when it gave a record, and the URL
    is marked visited. The result is the queue and the count of pages. *)
Definition visit (W : World) (cfg : Config) (current_url : pystr)
    (queue : list pystr) (pages : Z) : M (list pystr * Z) :=
  result <- get_page_content W cfg current_url ;;
  vars <-
    match truthy result with
    | Some (content, soup, ai_analysis) =>
        run save_page_content W content ai_analysis ;;
        new_links <- lift (extract_links W cfg soup current_url) ;;
        visited <- gets visited_urls ;;
        ret (add_links visited queue new_links, (pages + 1)%Z)
    | None => ret (queue, pages)
    end ;;
  run modify (fun s => set_visited_urls ({[current_url]} ∪ visited_urls s) s) ;;
  ret vars.

(** Lines 517-523: the periodic checkpoint. The pause of lines 512-515
    changes nothing here. *)
Definition periodic_save (W : World) (batch_size : Z) (vars : list pystr * Z)
    (batch : Z) : M Locals :=
  let batch := (batch + 1)%Z in
  if (batch_size <=? batch)%Z then
    run _save_progress W vars.1 vars.2 ;;
    ret (mkLocals vars.1 vars.2 0)
  else ret (mkLocals vars.1 vars.2 batch).

(** One turn of the loop (lines 482-523), entered with [current_url] popped
    from the queue, of which [queue] is the rest. *)
Definition loop_body (W : World) (cfg : Config) (batch_size : Z)
    (current_url : pystr) (queue : list pystr) (pages batch : Z) : M Locals :=
  visited <- gets visited_urls ;;
  if bool_decide (current_url ∈ visited) then ret (mkLocals queue pages batch)
  else
    vars <- visit W cfg current_url queue pages ;;
    periodic_save W batch_size vars batch.

(** [while urls_to_visit and pages_scraped < max_pages]: the outcome of the
    loop, or [None] when [fuel] turns do not end it. *)
Fixpoint crawl_loop (W : World) (cfg : Config) (max_pages batch_size : Z)
    (fuel : nat) (vars : Locals) (s : Scraper)
  : option (Result Locals * Scraper) :=
  match urls_to_visit vars with
  | [] => Some (Return vars, s)
  | current_url :: queue =>
      if (pages_scraped vars <? max_pages)%Z then
        match fuel with
        | O => None
        | S fuel' =>
            match loop_body W cfg batch_size current_url queue
                    (pages_scraped vars) (batch_count vars) s with
            | (Return vars', s') =>
                crawl_loop W cfg max_pages batch_size fuel' vars' s'
            | (Raise e, s') => Some (Raise e, s')
            end
        end
      else Some (Return vars, s)
  end.

(** Lines 525-542, after the loop. *)
Definition finish (W : World) (cfg : Config) (vars : Locals) : M bool :=
  run _save_progress W (urls_to_visit vars) (pages_scraped vars) ;;
  run save_summary W ;;
  run (if (0 <? pages_scraped vars)%Z
       then generate_multilingual_outputs W cfg else ret tt) ;;
  disk <- gets progress_file ;;
  run match disk with
      | Absent => ret tt
      | _ =>
          tick <- gets (fun s => List.length (fetched s)) ;;
          run lift (remove_progress W tick) ;;
          modify (set_progress_file Absent)
      end ;;
  ret true.

Definition scrape_website (W : World) (cfg : Config) (max_pages batch_size : Z)
    (fuel : nat) (s : Scraper) : option (Result bool * Scraper) :=
  match load_progress cfg s with
  | (Return vars, s1) =>
      match crawl_loop W cfg max_pages batch_size fuel vars s1 with
      | Some (Return vars', s2) => Some (finish W cfg vars' s2)
      | Some (Raise e, s2) => Some (Raise e, s2)
      | None => None
      end
  | (Raise e, s1) => Some (Raise e, s1)
  end.

(** ** Vocabulary of the statements *)

(** The ways the oracle fails: no client, a call that raises, a reply that
    is not JSON, a reply that is not a JSON object. *)
Inductive oracle_fails (client : option Client) (loads : pystr -> Result json)
    (tick : nat) (content url title : pystr) : Prop :=
  | oracle_unavailable :
      client = None -> oracle_fails client loads tick content url title
  | oracle_call_raises create e :
      client = Some create ->
      create tick url title (take 3000 content) = Raise e ->
      oracle_fails client loads tick content url title
  | oracle_reply_unparsable create reply e :
      client = Some create ->
      create tick url title (take 3000 content) = Return reply ->
      loads reply = Raise e ->
      oracle_fails client loads tick content url title
  | oracle_reply_not_object create reply j e :
      client = Some create ->
      create tick url title (take 3000 content) = Return reply ->
      loads reply = Return j ->
      as_dict j = Raise e ->
      oracle_fails client loads tick content url title.

(** The buckets are those of the three languages, as [__init__] makes
    them. *)
Definition three_buckets (m : gmap pystr (list Entry)) : Prop :=
  forall l, is_Some (m !! l) <-> l ∈ languages.

(** A site of one small page, for the examples. *)
Definition sample_world : World :=
  mkWorld (fun _ => true) (fun _ href => Return href) (fun _ => true)
    (fun _ _ => Return (mkHeaders (Some (str "text/html")) None))
    (fun _ _ => Return (StreamChunk [60; 112; 62] StreamEnd))
    (fun _ => Return (mkSoup None (str "page") []))
    (fun _ => Raise ValueError)
    (fun _ => str "2024-01-01T00:00:00")
    (fun _ url _ _ => Return (str "output/index.txt"))
    (fun _ _ => Return tt) (fun _ _ => Return tt)
    (fun _ _ _ => Return tt) (fun _ _ _ => Return tt) (fun _ => Return tt).

Definition sample_analysis (language : string) : analysis_dict :=
  <[str "url" := JStr (str "http://h/")]>
  (<[str "language" := JStr (str language)]> ∅).

Definition sample_config : Config :=
  mkConfig (str "http://h/") (str "h") 100 None true.

(** The same site when the progress file cannot be written. *)
Definition full_disk_world : World :=
  mkWorld (lib_check sample_world) (urljoin sample_world)
    (robots_can_fetch sample_world) (session_head sample_world)
    (session_get sample_world) (BeautifulSoup sample_world)
    (json_loads sample_world) (now_isoformat sample_world)
    (write_page sample_world) (fun _ _ => Raise OSError)
    (write_summary sample_world) (write_txt sample_world)
    (write_pdf sample_world) (remove_progress sample_world).

(** [turns vars s vars' s']: some turns of the loop, none of which raises,
    lead from the locals [vars] and the scraper [s] to [vars'] and [s']. *)
Inductive turns (W : World) (cfg : Config) (max_pages batch_size : Z)
  : Locals -> Scraper -> Locals -> Scraper -> Prop :=
  | turns_none vars s : turns W cfg max_pages batch_size vars s vars s
  | turns_more url queue pages batch s vars1 s1 vars2 s2 :
      (pages < max_pages)%Z ->
      loop_body W cfg batch_size url queue pages batch s = (Return vars1, s1) ->
      turns W cfg max_pages batch_size vars1 s1 vars2 s2 ->
      turns W cfg max_pages batch_size
        (mkLocals (url :: queue) pages batch) s vars2 s2.








(** A scheme as [urlparse] returns it: it starts with an ASCII letter, holds
    scheme characters only and is in lower case. *)
Definition scheme_wf (sch : pystr) : Prop :=
  exists c pre, sch = c :: pre /\
    isascii c && is_ascii_alpha c && forallb is_scheme_char (c :: pre) = true /\
    lower sch = sch.

(** A character that [urlparse] leaves in a path. *)
Definition plain_char (c : N) : Prop :=
  is_unsafe_url_char c = false /\ c <> chr "#" /\ c <> chr "?".

(** * Properties *)

(** ** The classification fallback *)


Lemma default_analysis_fields content :
  default_analysis content !! str "language" = Some (JStr (str "unknown")) /\
  default_analysis content !! str "category" = Some (JStr (str "general")) /\
  default_analysis content !! str "keywords" = Some (JList []) /\
  default_analysis content !! str "importance_score" = Some (JInt 5) /\
  default_analysis content !! str "summary"
    = Some (JStr (if bool_decide (200 < List.length content)%nat
                  then take 200 content ++ str "..." else content)).
Proof. repeat split; reflexivity. Qed.

(** C5. When the oracle is unavailable or fails, [analyze_content_with_ai]
    returns, without raising, the default analysis: language "unknown",
    category "general", no keywords, importance score 5, and as summary the
    text itself, or its first 200 characters followed by "..." when it is
    longer than 200 characters. *)
Theorem analyze_content_with_ai_fallback client loads tick content url title :
  oracle_fails client loads tick content url title ->
  exists d,
    analyze_content_with_ai client loads tick content url title = Return d /\
    d !! str "language" = Some (JStr (str "unknown")) /\
    d !! str "category" = Some (JStr (str "general")) /\
    d !! str "keywords" = Some (JList []) /\
    d !! str "importance_score" = Some (JInt 5) /\
    d !! str "summary"
      = Some (JStr (if bool_decide (200 < List.length content)%nat
                    then take 200 content ++ str "..." else content)).
Proof.
  intros Hfail. exists (default_analysis content).
  split; [|apply default_analysis_fields].
  unfold analyze_content_with_ai.
  destruct Hfail as [-> | create e -> Hc | create reply e -> Hc Hl
                    | create reply j e -> Hc Hl Hd]; [reflexivity|..];
    rewrite Hc; simpl; [reflexivity|..]; rewrite Hl; simpl; [reflexivity|].
  rewrite Hd. reflexivity.
Qed.

Lemma analyze_content_with_ai_fallback_witness :
  exists d,
    analyze_content_with_ai (Some (fun _ _ _ _ => Raise RequestException))
      (fun _ => Raise ValueError) 0 (repeat 97 201) (str "http://h/") (str "t")
    = Return d /\
    d !! str "language" = Some (JStr (str "unknown")) /\
    d !! str "category" = Some (JStr (str "general")) /\
    d !! str "keywords" = Some (JList []) /\
    d !! str "importance_score" = Some (JInt 5) /\
    d !! str "summary"
      = Some (JStr (if bool_decide (200 < List.length (repeat 97 201))%nat
                    then take 200 (repeat 97 201) ++ str "..."
                    else repeat 97 201)).
Proof.
  apply analyze_content_with_ai_fallback.
  eapply oracle_call_raises; reflexivity.
Defined.

(** ** The language buckets *)


Lemma three_buckets_new disk : three_buckets (multilingual_content (new_scraper disk)).
Proof.
  intros l. unfold languages. rewrite !elem_of_cons, elem_of_nil. simpl.
  rewrite !lookup_insert_is_Some, lookup_empty. split.
  - intros [<-|[_ [<-|[_ [<-|[_ H]]]]]]; auto. by destruct H.
  - intros [->|[->|[->|[]]]]; eauto 10.
Qed.

Lemma mixed_is_no_bucket m : three_buckets m -> m !! str "mixed" = None.
Proof.
  intros Hm. unfold three_buckets in Hm. apply eq_None_not_Some. rewrite Hm.
  unfold languages. rewrite !elem_of_cons, elem_of_nil.
  intros [H|[H|[H|[]]]]; discriminate H.
Qed.

Lemma file_record_three_buckets language e m m' :
  three_buckets m -> file_record language e m = Return m' -> three_buckets m'.
Proof.
  intros Hm Hf l. unfold three_buckets in Hm. rewrite <- Hm.
  destruct language as [| | |s| |]; simpl in Hf; try discriminate;
    try (injection Hf as <-; done).
  destruct (m !! s) as [bucket|] eqn:Hs.
  - injection Hf as <-. rewrite lookup_insert_is_Some.
    split; [intros [<-|[_ H]]; eauto | intros H; destruct (decide (s = l)); eauto].
  - case_bool_decide; injection Hf as <-; [|done].
    rewrite lookup_fmap, fmap_is_Some. done.
Qed.

(** C6. Once the page files are written, [save_page_content] appends the
    record to the bucket of its language and to no other when the language
    is english, french or portuguese, to every bucket when it is "mixed",
    and to none for "unknown" or any other value. *)
Theorem save_page_content_buckets W content ai s url path :
  three_buckets (multilingual_content s) ->
  ai !! str "url" = Some (JStr url) ->
  write_page W (List.length (fetched s)) url content ai = Return path ->
  let language := dict_get ai "language" (JStr (str "unknown")) in
  let e := mkEntry path content ai in
  let m := multilingual_content s in
  let m' := multilingual_content (save_page_content W content ai s).2 in
  (forall l, l ∈ languages -> language = JStr l ->
     m' !! l = (fun bucket => bucket ++ [e]) <$> m !! l /\
     forall l', l' <> l -> m' !! l' = m !! l') /\
  (language = JStr (str "mixed") ->
     forall l, m' !! l = (fun bucket => bucket ++ [e]) <$> m !! l) /\
  ((forall l, l ∈ languages -> language <> JStr l) ->
   language <> JStr (str "mixed") -> m' = m).
Proof.
  intros Hm Hurl Hw language e m m'.
  assert (Hrun : m' = match file_record language e m with
                      | Return b => b
                      | Raise _ => m
                      end).
  { subst m'. unfold save_page_content. rewrite Hurl.
    unfold bind, gets, lift, modify, ret. simpl. rewrite Hw. simpl.
    fold language e m. destruct (file_record language e m); reflexivity. }
  rewrite Hrun. clear Hrun m'. clearbody language e.
  unfold three_buckets in Hm. fold m in Hm. clearbody m.
  split; [|split].
  - intros l Hl ->. simpl. apply Hm in Hl as [bucket Hb].
    rewrite Hb. split; [by rewrite lookup_insert_eq|].
    intros l' Hne. by rewrite lookup_insert_ne.
  - intros -> l. simpl. rewrite (mixed_is_no_bucket m Hm).
    by rewrite lookup_fmap.
  - intros Hnot Hmixed. destruct language as [| | |l| |]; simpl; try done.
    destruct (m !! l) as [bucket|] eqn:Hb.
    + exfalso. apply (Hnot l); [|done]. apply Hm. by rewrite Hb.
    + case_bool_decide; [subst; done|done].
Qed.


Lemma save_page_content_buckets_witness :
  let ai := sample_analysis "french" in
  let s := new_scraper Absent in
  let e := mkEntry (str "output/index.txt") (str "page") ai in
  let m' := multilingual_content
              (save_page_content sample_world (str "page") ai s).2 in
  (three_buckets (multilingual_content s) /\
   ai !! str "url" = Some (JStr (str "http://h/")) /\
   write_page sample_world (List.length (fetched s)) (str "http://h/")
     (str "page") ai = Return (str "output/index.txt")) /\
  m' !! str "french" = Some [e] /\
  m' !! str "english" = Some [] /\
  m' !! str "portuguese" = Some [].
Proof.
  intros ai s e m'.
  assert (H1 : three_buckets (multilingual_content s))
    by apply three_buckets_new.
  assert (H2 : ai !! str "url" = Some (JStr (str "http://h/")))
    by reflexivity.
  assert (H3 : write_page sample_world (List.length (fetched s))
                 (str "http://h/") (str "page") ai
               = Return (str "output/index.txt")) by reflexivity.
  split; [auto|].
  destruct (save_page_content_buckets sample_world (str "page") ai s
              (str "http://h/") (str "output/index.txt") H1 H2 H3)
    as [Hone _].
  destruct (Hone (str "french")) as [Hfr Hother].
  - unfold languages. rewrite !elem_of_cons. auto.
  - reflexivity.
  - split; [exact Hfr|].
    split; (rewrite Hother; [reflexivity|discriminate]).
Defined.

(** ** Text cleaning *)

Lemma replace_char_absent old new s :
  has_char old s = false -> replace_char old new s = s.
Proof.
  unfold replace_char, has_char. induction s as [|c s IH]; [done|].
  simpl. intros [Hc Hs]%orb_false_elim. rewrite N.eqb_sym in Hc.
  rewrite Hc. simpl. f_equal. by apply IH.
Qed.

Lemma has_char_unpermitted c s :
  is_permitted c = false -> has_char c (strip_unpermitted s) = false.
Proof.
  intros Hc. unfold has_char, strip_unpermitted.
  induction s as [|x s IH]; [done|]. simpl.
  destruct (is_permitted x) eqn:Hx; [|done]. simpl. rewrite IH.
  destruct (N.eqb_spec c x) as [->|]; [congruence|done].
Qed.

(** C9. [clean_text] deletes the typographic punctuation instead of
    replacing it: the characters of the replacement table are outside the
    class that the preceding substitution keeps, so the table never applies
    (first part), and a text holding the seven of them comes out without
    them and without their ASCII equivalents (second part). *)
Theorem clean_text_deletes_typographic :
  (forall text,
     apply_replacements (strip_unpermitted text) = strip_unpermitted text) /\
  clean_text [97; 8216; 98; 8217; 99; 8220; 100; 8221; 101; 8211; 102; 8212;
              103; 160; 104]
  = str "abcdefgh".
Proof.
  split; [|reflexivity].
  intros text. unfold apply_replacements, replacements. simpl.
  by rewrite !(replace_char_absent _ _ (strip_unpermitted text))
    by (by apply has_char_unpermitted).
Qed.

(** ** URL normalisation *)

(** C2. With a query string, the slash that ends the path is kept: the test
    of line 265 looks at the end of the whole string, where the query now
    stands. The two URLs differ only in that slash and normalise to different
    strings. *)
Theorem normalize_url_slash_before_query chk :
  normalize_url chk (str "http://h/a/?x=1") = Return (str "http://h/a/?x=1") /\
  normalize_url chk (str "http://h/a?x=1") = Return (str "http://h/a?x=1") /\
  normalize_url chk (str "http://h/a/?x=1")
    <> normalize_url chk (str "http://h/a?x=1").
Proof.
  assert (H1 : normalize_url chk (str "http://h/a/?x=1")
               = Return (str "http://h/a/?x=1")) by (vm_compute; reflexivity).
  assert (H2 : normalize_url chk (str "http://h/a?x=1")
               = Return (str "http://h/a?x=1")) by (vm_compute; reflexivity).
  split; [exact H1|]. split; [exact H2|].
  rewrite H1, H2. discriminate.
Qed.

(** ** The crawl loop *)

Lemma crawl_loop_turn W cfg max_pages batch_size fuel url queue pages batch s :
  (pages < max_pages)%Z ->
  crawl_loop W cfg max_pages batch_size (S fuel)
    (mkLocals (url :: queue) pages batch) s
  = match loop_body W cfg batch_size url queue pages batch s with
    | (Return vars', s') => crawl_loop W cfg max_pages batch_size fuel vars' s'
    | (Raise e, s') => Some (Raise e, s')
    end.
Proof.
  intros Hlt. simpl. by rewrite (proj2 (Z.ltb_lt _ _) Hlt).
Qed.

(** More fuel does not change an outcome. *)
Lemma crawl_loop_fuel W cfg max_pages batch_size fuel fuel' vars s out :
  crawl_loop W cfg max_pages batch_size fuel vars s = Some out ->
  (fuel <= fuel')%nat ->
  crawl_loop W cfg max_pages batch_size fuel' vars s = Some out.
Proof.
  revert fuel' vars s. induction fuel as [|fuel IH]; intros fuel' vars s H Hle.
  - destruct vars as [[|url queue] pages batch]; [by destruct fuel'|].
    simpl in H. destruct (pages <? max_pages)%Z eqn:Hlt; [done|].
    destruct fuel'; simpl; by rewrite Hlt.
  - destruct fuel' as [|fuel']; [lia|].
    destruct vars as [[|url queue] pages batch]; [done|].
    simpl in *. destruct (pages <? max_pages)%Z; [|done].
    destruct (loop_body W cfg batch_size url queue pages batch s)
      as [[vars'|e] s']; [|done].
    apply IH; [done|lia].
Qed.

Lemma crawl_loop_turns W cfg max_pages batch_size vars s vars' s' fuel out :
  turns W cfg max_pages batch_size vars s vars' s' ->
  crawl_loop W cfg max_pages batch_size fuel vars' s' = Some out ->
  exists fuel0,
    crawl_loop W cfg max_pages batch_size fuel0 vars s = Some out.
Proof.
  intros Ht. revert fuel. induction Ht as [|url queue pages batch s vars1 s1
    vars2 s2 Hlt Hbody Ht IH]; intros fuel Hout; [eauto|].
  destruct (IH _ Hout) as [fuel0 H0]. exists (S fuel0).
  by rewrite crawl_loop_turn, Hbody.
Qed.

(** What each operation leaves alone. *)
Ltac run_monad :=
  unfold bind, gets, lift, modify, ret, raise, try_catch in *; simpl in *.

Lemma get_page_content_frame W cfg url s r s' :
  get_page_content W cfg url s = (r, s') ->
  (exists result, r = Return result) /\
  visited_urls s' = visited_urls s /\
  fetched s' = url :: fetched s /\
  multilingual_content s' = multilingual_content s /\
  page_files s' = page_files s.
Proof.
  unfold get_page_content. run_monad. intros H.
  repeat case_match; simplify_eq; simpl; eauto 10.
Qed.

Lemma save_page_content_frame W content ai s r s' :
  save_page_content W content ai s = (r, s') ->
  visited_urls s' = visited_urls s /\ fetched s' = fetched s /\
  failed_urls s' = failed_urls s.
Proof.
  unfold save_page_content. run_monad. intros H.
  repeat case_match; simplify_eq; simpl; eauto.
Qed.


Lemma visit_frame W cfg url queue pages s r s' :
  visit W cfg url queue pages s = (r, s') ->
  fetched s' = url :: fetched s /\
  match r with
  | Return _ => visited_urls s' = {[url]} ∪ visited_urls s
  | Raise _ => visited_urls s' = visited_urls s
  end.
Proof.
  unfold visit. unfold bind at 1.
  destruct (get_page_content W cfg url s) as [r1 sa] eqn:Hget.
  apply get_page_content_frame in Hget as ([result ->] & Hv & Hf & _).
  unfold bind at 1. destruct (truthy result) as [[[content soup] ai]|].
  - unfold bind at 1.
    destruct (save_page_content W content ai sa) as [[path|e] sb] eqn:Hsave;
      apply save_page_content_frame in Hsave as (Hv' & Hf' & _).
    + run_monad. destruct (extract_links W cfg soup url); intros [= <- <-];
        simpl; split; congruence.
    + intros [= <- <-]. split; congruence.
  - run_monad. intros [= <- <-]. simpl. split; congruence.
Qed.

Lemma _save_progress_raises W queue pages s e s' :
  _save_progress W queue pages s = (Raise e, s') ->
  s' = s /\
  exists snapshot, write_progress W (List.length (fetched s)) snapshot = Raise e.
Proof.
  unfold _save_progress, bind, gets, lift, modify. simpl.
  destruct (write_progress W _ _) eqn:Hw; [done|].
  intros [= <- <-]. eauto.
Qed.

(** C8, as the code has it. A checkpoint that cannot be written at the
    periodic save stops the crawl: when some turns of the loop have led to a
    turn whose visit succeeds and whose periodic save is due and raises, the
    loop ends with that exception, which leaves [scrape_website]; the URL of
    that turn is already marked visited. *)
Theorem periodic_save_failure_propagates
    W cfg max_pages batch_size vars0 s0 url queue pages batch s vars s1 e s2 :
  turns W cfg max_pages batch_size vars0 s0
    (mkLocals (url :: queue) pages batch) s ->
  (pages < max_pages)%Z ->
  url ∉ visited_urls s ->
  visit W cfg url queue pages s = (Return vars, s1) ->
  (batch_size <= batch + 1)%Z ->
  _save_progress W vars.1 vars.2 s1 = (Raise e, s2) ->
  url ∈ visited_urls s2 /\
  exists fuel,
    crawl_loop W cfg max_pages batch_size fuel vars0 s0 = Some (Raise e, s2) /\
    forall st, load_progress cfg st = (Return vars0, s0) ->
      scrape_website W cfg max_pages batch_size fuel st = Some (Raise e, s2).
Proof.
  intros Ht Hlt Hnew Hvisit Hdue Hsave.
  assert (Hbody : loop_body W cfg batch_size url queue pages batch s
                  = (Raise e, s2)).
  { unfold loop_body, bind, gets. simpl.
    rewrite bool_decide_eq_false_2 by done. rewrite Hvisit.
    unfold periodic_save. rewrite (proj2 (Z.leb_le _ _) Hdue).
    unfold bind. by rewrite Hsave. }
  split.
  - apply _save_progress_raises in Hsave as [-> _].
    apply visit_frame in Hvisit as [_ ->]. set_solver.
  - destruct (crawl_loop_turns W cfg max_pages batch_size vars0 s0 _ s 1
                (Raise e, s2) Ht) as [fuel Hfuel].
    { by rewrite crawl_loop_turn, Hbody. }
    exists fuel. split; [done|].
    intros st Hload. unfold scrape_website. by rewrite Hload, Hfuel.
Qed.

Lemma periodic_save_failure_propagates_witness :
  let vars0 := mkLocals [str "http://h/"] 0 0 in
  let s0 := new_scraper Absent in
  exists s2 fuel,
    str "http://h/" ∈ visited_urls s2 /\
    crawl_loop full_disk_world sample_config 5 1 fuel vars0 s0
    = Some (Raise OSError, s2) /\
    scrape_website full_disk_world sample_config 5 1 fuel s0
    = Some (Raise OSError, s2).
Proof.
  intros vars0 s0.
  pose (s1 := (visit full_disk_world sample_config (str "http://h/") [] 0 s0).2).
  assert (Hvisit : visit full_disk_world sample_config (str "http://h/") [] 0 s0
                   = (Return ([], 1%Z), s1)) by (vm_compute; reflexivity).
  assert (Hnew : str "http://h/" ∉ visited_urls s0) by apply not_elem_of_empty.
  assert (Hsave : _save_progress full_disk_world
                    (([] : list pystr, 1%Z).1) (([] : list pystr, 1%Z).2) s1
                  = (Raise OSError, s1)) by reflexivity.
  destruct (periodic_save_failure_propagates full_disk_world sample_config 5 1
              vars0 s0 (str "http://h/") [] 0 0 s0 ([], 1%Z) s1 OSError s1
              (turns_none _ _ _ _ _ _) eq_refl Hnew Hvisit
              ltac:(discriminate) Hsave)
    as [Hin [fuel [Hloop Hrun]]].
  exists s1, fuel. split; [exact Hin|]. split; [exact Hloop|].
  apply Hrun. reflexivity.
Defined.

(** C8, as claimed, fails on a site of one page with the progress file out
    of reach and a checkpoint due at every turn: [_save_progress] raises,
    the periodic save raises with it, and so does [scrape_website], without
    a summary. *)
Lemma periodic_save_failure_example :
  let s := new_scraper Absent in
  _save_progress full_disk_world [] 1 s = (Raise OSError, s) /\
  periodic_save full_disk_world 1 ([], 1%Z) 0 s = (Raise OSError, s) /\
  exists s',
    scrape_website full_disk_world sample_config 5 1 10 s
    = Some (Raise OSError, s') /\
    summary_file s' = None.
Proof.
  intros s. split; [reflexivity|]. split; [reflexivity|].
  eexists. split; [vm_compute; reflexivity|reflexivity].
Qed.

(** ** The page processor *)




(** ** Exactly-once processing *)



















(** ** The order of the documents *)




Lemma str_lt_total a b : str_lt a b = false -> str_lt b a = false -> a = b.
Proof.
  revert b. induction a as [|x a IH]; intros [|y b]; simpl; try done.
  destruct (N.ltb_spec x y), (N.ltb_spec y x), (N.eqb_spec x y),
    (N.eqb_spec y x); simpl; try lia; try done.
  intros. subst. f_equal. by apply IH.
Qed.





Section stable_sort.
Context {A : Type} (lt : A -> A -> bool).

Lemma insort_Permutation x s : insort lt x s ≡ₚ x :: s.
Proof.
  induction s as [|y s IH]; [done|]. simpl.
  destruct (lt y x); [|done]. rewrite IH. apply Permutation_swap.
Qed.

Lemma py_sorted_Permutation l : py_sorted lt l ≡ₚ l.
Proof.
  induction l as [|x l IH]; [done|]. simpl.
  by rewrite insort_Permutation, IH.
Qed.





Hypothesis lt_asym : forall a b, lt a b = true -> lt b a = false.



End stable_sort.







(** ** The query string *)





(** The values of [name] among the pairs, in their order. *)
Lemma parse_qs_step_lookup m nv name :
  parse_qs_step m nv !! name
  = if decide (nv.1 = name) then Some (default [] (m !! name) ++ [nv.2])
    else m !! name.
Proof.
  unfold parse_qs_step. destruct (decide (nv.1 = name)) as [<-|Hne].
  - destruct (m !! nv.1); by rewrite lookup_insert_eq.
  - destruct (m !! nv.1); by rewrite lookup_insert_ne.
Qed.

Lemma parse_qs_fold_lookup pairs m name :
  foldl parse_qs_step m pairs !! name
  = match snd <$> filter (fun nv : pystr * pystr => nv.1 = name) pairs with
    | [] => m !! name
    | vs => Some (default [] (m !! name) ++ vs)
    end.
Proof.
  revert m. induction pairs as [|nv pairs IH]; intros m; [done|].
  simpl. rewrite IH, parse_qs_step_lookup, filter_cons.
  destruct (decide (nv.1 = name)) as [Heq|Hne]; [|done].
  rewrite fmap_cons. simpl.
  destruct (snd <$> filter _ pairs) as [|v vs]; [done|].
  by rewrite <- app_assoc.
Qed.





(** ** Idempotence of the normalisation *)

Lemma div4096 c : c / 4096 = c / 64 / 64.
Proof. by rewrite N.Div0.div_div. Qed.

Lemma div262144 c : c / 262144 = c / 64 / 64 / 64.
Proof. by rewrite !N.Div0.div_div. Qed.

Lemma in_range_spec lo hi c : in_range lo hi c = true <-> lo <= c /\ c <= hi.
Proof. unfold in_range. rewrite andb_true_iff, !N.leb_le. done. Qed.

Lemma in_range_true lo hi c : lo <= c -> c <= hi -> in_range lo hi c = true.
Proof. intros. by apply in_range_spec. Qed.

Lemma in_range_false lo hi c : c < lo \/ hi < c -> in_range lo hi c = false.
Proof.
  intros H. apply not_true_is_false. rewrite in_range_spec. lia.
Qed.

(** The base-64 digits of a code point, as linear facts. *)
Ltac digits64 c :=
  rewrite ?div262144, ?div4096;
  pose proof (N.div_mod c 64 ltac:(discriminate));
  pose proof (N.mod_lt c 64 ltac:(discriminate));
  pose proof (N.div_mod (c / 64) 64 ltac:(discriminate));
  pose proof (N.mod_lt (c / 64) 64 ltac:(discriminate));
  pose proof (N.div_mod (c / 64 / 64) 64 ltac:(discriminate));
  pose proof (N.mod_lt (c / 64 / 64) 64 ltac:(discriminate));
  generalize dependent (c / 64 / 64 / 64);
  generalize dependent ((c / 64 / 64) mod 64);
  generalize dependent (c / 64 / 64);
  generalize dependent ((c / 64) mod 64);
  generalize dependent (c mod 64);
  generalize dependent (c / 64); intros.

Lemma second3_ok_spec b b2 :
  128 <= b2 -> b2 <= 191 ->
  (b2 < 160 -> b <> 224) -> (160 <= b2 -> b <> 237) ->
  second3_ok b b2 = true.
Proof.
  intros. unfold second3_ok, is_cont. rewrite in_range_true by done. simpl.
  destruct (N.ltb_spec b2 160); apply negb_true_iff, N.eqb_neq; auto.
Qed.

Lemma second4_ok_spec b b2 :
  128 <= b2 -> b2 <= 191 ->
  (b2 < 144 -> b <> 240) -> (144 <= b2 -> b <> 244) ->
  second4_ok b b2 = true.
Proof.
  intros. unfold second4_ok, is_cont. rewrite in_range_true by done. simpl.
  destruct (N.ltb_spec b2 144); apply negb_true_iff, N.eqb_neq; auto.
Qed.

Lemma utf8_decode_encode_char c bs rest :
  utf8_encode_char c = Return bs ->
  utf8_decode (bs ++ rest) = c :: utf8_decode rest.
Proof.
  unfold utf8_encode_char.
  destruct (N.ltb_spec c 128); [intros [= <-]|].
  { simpl. by rewrite (proj2 (N.ltb_lt _ _)). }
  destruct (N.ltb_spec c 2048); [intros [= <-]|].
  { cbn [app utf8_decode]. digits64 c.
    rewrite (proj2 (N.ltb_ge _ _)) by lia.
    rewrite in_range_true by lia. unfold is_cont.
    rewrite in_range_true by lia. f_equal. lia. }
  destruct (N.ltb_spec c 65536).
  { destruct (in_range 55296 57343 c) eqn:Hs; [done|]. intros [= <-].
    assert (c < 55296 \/ 57343 < c).
    { destruct (N.lt_ge_cases c 55296); [auto|].
      destruct (N.lt_ge_cases 57343 c); [auto|].
      by rewrite in_range_true in Hs by lia. }
    clear Hs. cbn [app utf8_decode]. digits64 c.
    rewrite (proj2 (N.ltb_ge _ _)) by lia.
    rewrite in_range_false by lia. rewrite in_range_true by lia.
    rewrite second3_ok_spec by lia. unfold is_cont.
    rewrite in_range_true by lia. f_equal. lia. }
  destruct (N.ltb_spec c 1114112); [intros [= <-]|done].
  cbn [app utf8_decode]. digits64 c.
  rewrite (proj2 (N.ltb_ge _ _)) by lia.
  rewrite !in_range_false by lia. rewrite in_range_true by lia.
  rewrite second4_ok_spec by lia. unfold is_cont.
  rewrite !in_range_true by lia. f_equal. lia.
Qed.

Lemma utf8_encode_cons c s :
  utf8_encode (c :: s)
  = rbind (utf8_encode_char c) (fun bc =>
      rbind (utf8_encode s) (fun bs => Return (bc ++ bs))).
Proof.
  unfold utf8_encode. simpl. destruct (utf8_encode_char c); [|done]. simpl.
  by destruct (rmapM utf8_encode_char s).
Qed.

Lemma utf8_decode_encode s bs :
  utf8_encode s = Return bs -> utf8_decode bs = s.
Proof.
  revert bs. induction s as [|c s IH]; intros bs.
  - by intros [= <-].
  - rewrite utf8_encode_cons.
    destruct (utf8_encode_char c) as [bc|] eqn:Hc; [|done]. simpl.
    destruct (utf8_encode s) as [bs'|]; [|done]. intros [= <-].
    rewrite (utf8_decode_encode_char c bc bs' Hc). f_equal. by apply IH.
Qed.

Lemma utf8_encode_char_bytes c bs :
  utf8_encode_char c = Return bs -> Forall (fun b => b < 256) bs.
Proof.
  unfold utf8_encode_char.
  destruct (N.ltb_spec c 128); [intros [= <-]; repeat constructor; lia|].
  destruct (N.ltb_spec c 2048);
    [intros [= <-]; digits64 c; repeat constructor; lia|].
  destruct (N.ltb_spec c 65536).
  { destruct (in_range 55296 57343 c); [done|].
    intros [= <-]; digits64 c; repeat constructor; lia. }
  destruct (N.ltb_spec c 1114112); [|done].
  intros [= <-]; digits64 c; repeat constructor; lia.
Qed.

Lemma utf8_encode_bytes s bs :
  utf8_encode s = Return bs -> Forall (fun b => b < 256) bs.
Proof.
  revert bs. induction s as [|c s IH]; intros bs.
  - intros [= <-]. constructor.
  - rewrite utf8_encode_cons.
    destruct (utf8_encode_char c) as [bc|] eqn:Hc; [|done]. simpl.
    destruct (utf8_encode s) as [bs'|]; [|done]. intros [= <-].
    apply Forall_app. split; [by eapply utf8_encode_char_bytes|by apply IH].
Qed.

Lemma hexval_hexdigit d : d < 16 -> hexval (hexdigit d) = Some d.
Proof.
  intros Hd. unfold hexval, hexdigit, is_digit.
  destruct (N.ltb_spec d 10).
  - rewrite in_range_true by lia. f_equal. lia.
  - rewrite in_range_false by lia. rewrite in_range_true by lia. f_equal. lia.
Qed.

Lemma always_safe_not_special b :
  always_safe b = true ->
  b <> chr "%" /\ b <> chr "+" /\ b <> chr "&" /\ b <> chr "=" /\
  b <> chr "#" /\ b <> chr "/" /\ b <> chr "?" /\ b <> chr " " /\
  is_unsafe_url_char b = false /\ isascii b = true.
Proof.
  intros H.
  assert (Hne : forall x, always_safe x = false -> b <> x) by congruence.
  repeat split; try (apply Hne; reflexivity).
  - destruct (is_unsafe_url_char b) eqn:Hu; [|done].
    unfold is_unsafe_url_char in Hu.
    apply orb_prop in Hu as [Hu|Hu]; [apply orb_prop in Hu as [Hu|Hu]|];
      apply N.eqb_eq in Hu; subst b; discriminate H.
  - unfold always_safe, is_ascii_alpha, is_upper, is_lower, is_digit in H.
    unfold isascii. apply N.ltb_lt.
    repeat (apply orb_prop in H as [H|H]);
      rewrite ?in_range_spec, ?N.eqb_eq in H; try lia; subst; reflexivity.
Qed.

Lemma unquote_to_bytes_quote_byte safe b rest :
  b < 256 -> safe (chr "%") = false ->
  unquote_to_bytes (quote_byte safe b ++ rest) = b :: unquote_to_bytes rest.
Proof.
  intros Hb Hsafe. unfold quote_byte.
  destruct (always_safe b || safe b) eqn:Hs.
  - cbn [app unquote_to_bytes].
    destruct (N.eqb_spec b (chr "%")) as [->|]; [|done].
    by rewrite Hsafe in Hs.
  - cbn [app unquote_to_bytes]. rewrite N.eqb_refl.
    rewrite !hexval_hexdigit.
    + f_equal. pose proof (N.div_mod b 16 ltac:(discriminate)). lia.
    + by apply N.mod_lt.
    + apply N.Div0.div_lt_upper_bound. lia.
Qed.

Lemma unquote_to_bytes_quote safe bs :
  Forall (fun b => b < 256) bs -> safe (chr "%") = false ->
  unquote_to_bytes (bs ≫= quote_byte safe) = bs.
Proof.
  intros Hbs Hsafe. induction Hbs as [|b bs Hb _ IH]; [done|].
  change ((b :: bs) ≫= quote_byte safe)
    with (quote_byte safe b ++ (bs ≫= quote_byte safe)).
  by rewrite unquote_to_bytes_quote_byte, IH.
Qed.

Lemma hexdigit_safe d : d < 16 -> always_safe (hexdigit d) = true.
Proof.
  intros Hd. unfold hexdigit, always_safe, is_ascii_alpha, is_upper, is_digit.
  destruct (N.ltb_spec d 10).
  - rewrite (in_range_true 48 57) by lia. by rewrite orb_true_r.
  - by rewrite (in_range_true 65 90) by lia.
Qed.

Lemma quote_byte_chars safe b :
  b < 256 ->
  Forall (fun c => always_safe c = true \/ safe c = true \/ c = chr "%")
    (quote_byte safe b).
Proof.
  intros Hb. unfold quote_byte.
  destruct (always_safe b || safe b) eqn:Hs.
  - apply orb_prop in Hs. constructor; [tauto|constructor].
  - apply Forall_cons. split; [auto|].
    apply Forall_cons. split.
    { left. apply hexdigit_safe. apply N.Div0.div_lt_upper_bound. lia. }
    apply Forall_cons. split; [|constructor].
    left. apply hexdigit_safe. by apply N.mod_lt.
Qed.

Lemma quote_chars safe s q :
  quote safe s = Return q ->
  Forall (fun c => always_safe c = true \/ safe c = true \/ c = chr "%") q.
Proof.
  unfold quote. destruct (utf8_encode s) as [bs|] eqn:Hbs; [|done].
  intros [= <-]. apply utf8_encode_bytes in Hbs.
  induction Hbs as [|b bs Hb _ IH]; [constructor|].
  change ((b :: bs) ≫= quote_byte safe)
    with (quote_byte safe b ++ (bs ≫= quote_byte safe)).
  apply Forall_app. split; [by apply quote_byte_chars|done].
Qed.

Lemma replace_char_map old new s :
  replace_char old [new] s = (fun c => if c =? old then new else c) <$> s.
Proof.
  unfold replace_char. induction s as [|c s IH]; [done|].
  change ((c :: s) ≫= (fun c => if c =? old then [new] else [c]))
    with ((if c =? old then [new] else [c])
          ++ (s ≫= (fun c => if c =? old then [new] else [c]))).
  rewrite IH, fmap_cons. destruct (c =? old); reflexivity.
Qed.

Lemma replace_char_back a b s :
  has_char b s = false ->
  replace_char b [a] (replace_char a [b] s) = s.
Proof.
  rewrite !replace_char_map. unfold has_char.
  induction s as [|c s IH]; [done|]. cbn [existsb].
  intros [Hc Hs]%orb_false_elim. rewrite !fmap_cons, IH by done. f_equal.
  destruct (N.eqb_spec c a) as [->|Hne].
  - by rewrite N.eqb_refl.
  - rewrite N.eqb_sym in Hc. by rewrite Hc.
Qed.

Lemma plus_for_space c :
  always_safe c = true \/ (c =? chr " ") = true \/ c = chr "%" ->
  always_safe (if c =? chr " " then chr "+" else c) = true \/
  (if c =? chr " " then chr "+" else c) = chr "%" \/
  (if c =? chr " " then chr "+" else c) = chr "+".
Proof.
  intros [Hc|[Hc|Hc]].
  - destruct (N.eqb_spec c (chr " ")) as [->|]; [discriminate Hc|by left].
  - rewrite Hc. right; right; reflexivity.
  - subst c. right; left; reflexivity.
Qed.

(** What [quote_plus] writes: unreserved characters, [%] and [+]. *)
Lemma quote_plus_chars s e :
  quote_plus s = Return e ->
  Forall (fun c => always_safe c = true \/ c = chr "%" \/ c = chr "+") e.
Proof.
  unfold quote_plus. destruct (has_char (chr " ") s).
  - destruct (quote _ s) as [q|] eqn:Hq; [|done]. intros [= <-].
    apply quote_chars in Hq. rewrite replace_char_map.
    apply Forall_fmap. eapply Forall_impl; [exact Hq|].
    exact plus_for_space.
  - intros Hq. apply quote_chars in Hq.
    eapply Forall_impl; [exact Hq|]. intros c [Hc|[Hc|Hc]]; auto. done.
Qed.

Lemma has_char_false c s : has_char c s = false <-> Forall (fun x => x <> c) s.
Proof.
  unfold has_char. induction s as [|x s IH]; simpl.
  - split; [constructor|done].
  - rewrite orb_false_iff, IH, Forall_cons, N.eqb_neq.
    split; intros [? ?]; split; auto.
Qed.

Lemma unquote_to_bytes_plain s :
  has_char (chr "%") s = false -> unquote_to_bytes s = s.
Proof.
  unfold has_char. induction s as [|c s IH]; [done|].
  cbn [existsb unquote_to_bytes]. intros [Hc Hs]%orb_false_elim.
  rewrite N.eqb_sym in Hc. rewrite Hc. f_equal. by apply IH.
Qed.

Lemma utf8_decode_ascii s : Forall (fun c => isascii c = true) s -> utf8_decode s = s.
Proof.
  induction 1 as [|c s Hc _ IH]; [done|].
  cbn [utf8_decode]. unfold isascii in Hc. by rewrite Hc, IH.
Qed.

Lemma unquote_parts_ascii acc s :
  Forall (fun c => isascii c = true) s ->
  unquote_parts acc s = unquote_flush (acc ++ s).
Proof.
  intros Hs. revert acc. induction Hs as [|c s Hc _ IH]; intros acc; simpl.
  - by rewrite app_nil_r.
  - rewrite Hc, IH. by rewrite <- app_assoc.
Qed.

Lemma unquote_ascii s :
  Forall (fun c => isascii c = true) s ->
  unquote s = utf8_decode (unquote_to_bytes s).
Proof.
  intros Hs. unfold unquote. destruct (has_char (chr "%") s) eqn:Hp.
  - by rewrite unquote_parts_ascii.
  - by rewrite unquote_to_bytes_plain, utf8_decode_ascii.
Qed.

Lemma unquote_quote safe s q :
  safe (chr "%") = false -> (forall c, safe c = true -> isascii c = true) ->
  quote safe s = Return q -> unquote q = s.
Proof.
  intros Hsafe Hascii Hq. rewrite unquote_ascii.
  - revert Hq. unfold quote.
    destruct (utf8_encode s) as [bs|] eqn:Hbs; [|done]. intros [= <-].
    rewrite unquote_to_bytes_quote; [by apply utf8_decode_encode| |done].
    by eapply utf8_encode_bytes.
  - apply quote_chars in Hq. eapply Forall_impl; [exact Hq|].
    intros c [Hc|[Hc| ->]]; [by apply always_safe_not_special|auto|done].
Qed.

(** Decoding what [quote_plus] wrote gives the string back. *)
Lemma unquote_quote_plus s e :
  quote_plus s = Return e ->
  unquote (replace_char (chr "+") [chr " "] e) = s.
Proof.
  unfold quote_plus. destruct (has_char (chr " ") s).
  - destruct (quote _ s) as [q|] eqn:Hq; [|done]. intros [= <-].
    rewrite replace_char_back.
    + eapply unquote_quote; [| |exact Hq]; [done|].
      intros c Hc%N.eqb_eq. by subst.
    + apply has_char_false. apply quote_chars in Hq.
      eapply Forall_impl; [exact Hq|].
      intros c [Hc|[Hc%N.eqb_eq| ->]]; [|by subst|done].
      by apply always_safe_not_special.
  - intros Hq. rewrite replace_char_absent.
    + eapply unquote_quote; [| |exact Hq]; done.
    + apply has_char_false. apply quote_chars in Hq.
      eapply Forall_impl; [exact Hq|].
      intros c [Hc|[Hc| ->]]; [|done|done].
      by apply always_safe_not_special.
Qed.

Lemma cut_app c a b : has_char c a = false -> cut c (a ++ c :: b) = Some (a, b).
Proof.
  unfold has_char. induction a as [|x a IH]; cbn [existsb app cut].
  - by rewrite N.eqb_refl.
  - intros [Hx Ha]%orb_false_elim. rewrite N.eqb_sym in Hx.
    by rewrite Hx, IH.
Qed.

Lemma cut_absent c a : has_char c a = false -> cut c a = None.
Proof.
  unfold has_char. induction a as [|x a IH]; cbn [existsb cut]; [done|].
  intros [Hx Ha]%orb_false_elim. rewrite N.eqb_sym in Hx.
  by rewrite Hx, IH.
Qed.

Lemma split_on_plain c f : has_char c f = false -> split_on c f = [f].
Proof.
  unfold has_char. induction f as [|x f IH]; cbn [existsb split_on]; [done|].
  intros [Hx Hf]%orb_false_elim. rewrite N.eqb_sym in Hx.
  by rewrite Hx, IH.
Qed.

Lemma split_on_app c f rest :
  has_char c f = false ->
  split_on c (f ++ c :: rest) = f :: split_on c rest.
Proof.
  unfold has_char. induction f as [|x f IH]; cbn [existsb app split_on].
  - by rewrite N.eqb_refl.
  - intros [Hx Hf]%orb_false_elim. rewrite N.eqb_sym in Hx.
    by rewrite Hx, IH.
Qed.

Lemma split_on_join c fields :
  fields <> [] ->
  Forall (fun f => has_char c f = false) fields ->
  split_on c (join c fields) = fields.
Proof.
  intros Hne Hall. induction Hall as [|f fields Hf Hall IH]; [done|].
  destruct fields as [|g fields]; [by apply split_on_plain|].
  change (join c (f :: g :: fields)) with (f ++ c :: join c (g :: fields)).
  rewrite split_on_app by done. f_equal. by apply IH.
Qed.

(** A field that [urlencode] wrote reads back as the pair it was made
    from. *)
Lemma parse_field_encoded k v ek ev :
  quote_plus k = Return ek -> quote_plus v = Return ev ->
  parse_field (ek ++ chr "=" :: ev) = (k, v) /\
  has_char (chr "&") (ek ++ chr "=" :: ev) = false /\
  ek ++ chr "=" :: ev <> [].
Proof.
  intros Hk Hv.
  pose proof (quote_plus_chars _ _ Hk) as Hck.
  pose proof (quote_plus_chars _ _ Hv) as Hcv.
  assert (Hspecial : forall e c,
            Forall (fun c => always_safe c = true \/ c = chr "%" \/ c = chr "+") e ->
            always_safe c = false -> c <> chr "%" -> c <> chr "+" ->
            has_char c e = false).
  { intros e c He Hc H1 H2. apply has_char_false.
    eapply Forall_impl; [exact He|]. intros x [Hx|[->| ->]]; congruence. }
  split; [|split].
  - unfold parse_field, cut_or.
    rewrite cut_app by (by apply Hspecial).
    by rewrite (unquote_quote_plus _ _ Hk), (unquote_quote_plus _ _ Hv).
  - apply has_char_false, Forall_app. split; [|apply Forall_cons; split].
    + by apply has_char_false, Hspecial.
    + done.
    + by apply has_char_false, Hspecial.
  - by destruct ek.
Qed.

Lemma urlencode_item_fields kv fields :
  urlencode_item kv = Return fields ->
  Forall2 (fun f v => parse_field f = (kv.1, v) /\
                      has_char (chr "&") f = false /\ f <> []) fields kv.2.
Proof.
  unfold urlencode_item. destruct (quote_plus kv.1) as [ek|] eqn:Hk; [|done].
  cbn [rbind]. generalize kv.2. intros vs. revert fields.
  induction vs as [|v vs IH]; intros fields; cbn [rmapM rbind].
  - intros [= <-]. constructor.
  - destruct (quote_plus v) as [ev|] eqn:Hv; [|done]. cbn [rbind].
    destruct (rmapM _ vs) as [fs|]; [|done]. cbn [rbind].
    intros [= <-]. constructor; [by apply parse_field_encoded|by apply IH].
Qed.

Lemma parse_fields fields (pairs : list (pystr * pystr)) :
  Forall2 (fun f nv => parse_field f = nv /\
                       has_char (chr "&") f = false /\ f <> []) fields pairs ->
  parse_field <$> List.filter (fun f => negb (bool_decide (f = []))) fields
  = pairs.
Proof.
  induction 1 as [|f nv fields pairs (Hp & _ & Hne) _ IH]; [done|].
  cbn [List.filter]. rewrite bool_decide_eq_false_2 by done.
  cbn [negb]. by rewrite fmap_cons, Hp, IH.
Qed.

(** [parse_qsl] reads what [urlencode] wrote. *)
Lemma parse_qsl_urlencode items enc :
  urlencode items = Return enc ->
  parse_qsl enc = items ≫= (fun kv => (fun v => (kv.1, v)) <$> kv.2).
Proof.
  unfold urlencode.
  destruct (rmapM urlencode_item items) as [l|] eqn:Hl; [|done].
  intros [= <-].
  assert (Hfields :
    Forall2 (fun f nv => parse_field f = nv /\
                         has_char (chr "&") f = false /\ f <> [])
      (concat l) (items ≫= (fun kv => (fun v => (kv.1, v)) <$> kv.2))).
  { revert l Hl. induction items as [|kv items IH]; intros l; cbn [rmapM rbind].
    - intros [= <-]. constructor.
    - destruct (urlencode_item kv) as [fs|] eqn:Hkv; [|done]. cbn [rbind].
      destruct (rmapM urlencode_item items) as [l'|]; [|done]. cbn [rbind].
      intros [= <-]. cbn [concat].
      change ((kv :: items) ≫= (fun kv => (fun v => (kv.1, v)) <$> kv.2))
        with (((fun v => (kv.1, v)) <$> kv.2)
              ++ (items ≫= (fun kv => (fun v => (kv.1, v)) <$> kv.2))).
      apply Forall2_app; [|by apply IH].
      apply urlencode_item_fields in Hkv.
      apply Forall2_fmap_r. eapply Forall2_impl; [exact Hkv|]. done. }
  clear Hl. unfold parse_qsl. revert Hfields.
  generalize (concat l). generalize (items ≫= (fun kv => (fun v => (kv.1, v)) <$> kv.2)).
  intros pairs fields Hfields.
  destruct (decide (fields = [])) as [->|Hne].
  { apply Forall2_nil_inv_l in Hfields as ->. reflexivity. }
  rewrite split_on_join; [by apply parse_fields|done|].
  clear -Hfields. induction Hfields as [|? ? ? ? (_ & ? & _)]; by constructor.
Qed.

Lemma cut_Some c s a b :
  cut c s = Some (a, b) -> s = a ++ c :: b /\ has_char c a = false.
Proof.
  revert a. induction s as [|x s IH]; intros a; cbn [cut]; [done|].
  destruct (N.eqb_spec x c) as [->|Hne].
  - intros [= <- <-]. done.
  - destruct (cut c s) as [[a' b']|]; [|done]. intros [= <- <-].
    destruct (IH a' eq_refl) as [-> Ha]. split; [done|].
    unfold has_char in *. cbn [existsb]. rewrite Ha.
    by rewrite (proj2 (N.eqb_neq c x)) by done.
Qed.

Lemma take_drop_while p s : take_while p s ++ drop_while p s = s.
Proof.
  induction s as [|c s IH]; [done|]. simpl. destruct (p c); [|done].
  simpl. by rewrite IH.
Qed.

Lemma take_while_Forall p s : Forall (fun c => p c = true) (take_while p s).
Proof.
  induction s as [|c s IH]; simpl; [constructor|].
  destruct (p c) eqn:Hc; by constructor.
Qed.

Lemma take_while_app p a rest :
  Forall (fun c => p c = true) a ->
  match rest with [] => True | c :: _ => p c = false end ->
  take_while p (a ++ rest) = a /\ drop_while p (a ++ rest) = rest.
Proof.
  intros Ha Hrest. induction Ha as [|c a Hc _ IH]; simpl.
  - destruct rest as [|c rest]; [done|]. simpl. by rewrite Hrest.
  - rewrite Hc. destruct IH as [-> ->]. done.
Qed.

Lemma remove_unsafe_Forall s :
  Forall (fun c => is_unsafe_url_char c = false) (remove_unsafe s).
Proof.
  unfold remove_unsafe. induction s as [|c s IH]; simpl; [constructor|].
  destruct (is_unsafe_url_char c) eqn:Hc; simpl; [done|by constructor].
Qed.

Lemma remove_unsafe_id s :
  Forall (fun c => is_unsafe_url_char c = false) s -> remove_unsafe s = s.
Proof.
  unfold remove_unsafe. induction 1 as [|c s Hc _ IH]; simpl; [done|].
  by rewrite Hc, IH.
Qed.

Lemma lower_char_idemp c : lower_char (lower_char c) = lower_char c.
Proof.
  unfold lower_char, is_upper. destruct (in_range 65 90 c) eqn:Hc; [|by rewrite Hc].
  apply in_range_spec in Hc. by rewrite in_range_false by lia.
Qed.

Lemma lower_idemp s : lower (lower s) = lower s.
Proof.
  unfold lower. rewrite <- list_fmap_compose. apply list_fmap_ext.
  intros _ c _. apply lower_char_idemp.
Qed.

Lemma lower_char_alpha c :
  is_ascii_alpha c = true ->
  is_ascii_alpha (lower_char c) = true /\ isascii (lower_char c) = true.
Proof.
  unfold is_ascii_alpha, lower_char, is_upper, is_lower, isascii.
  intros [H|H]%orb_prop; apply in_range_spec in H.
  - rewrite (in_range_true 65 90 c) by lia.
    rewrite (in_range_true 97 122) by lia. rewrite orb_true_r.
    split; [done|]. apply N.ltb_lt. lia.
  - rewrite (in_range_false 65 90 c) by lia.
    rewrite (in_range_true 97 122) by lia. rewrite orb_true_r.
    split; [done|]. apply N.ltb_lt. lia.
Qed.

Lemma lower_char_scheme c :
  is_scheme_char c = true -> is_scheme_char (lower_char c) = true.
Proof.
  unfold is_scheme_char. intros H.
  destruct (is_ascii_alpha c) eqn:Ha.
  - apply lower_char_alpha in Ha as [-> _]. done.
  - unfold lower_char.
    assert (is_upper c = false) as ->; [|by rewrite Ha].
    unfold is_ascii_alpha in Ha. by apply orb_false_elim in Ha as [-> _].
Qed.

Lemma scheme_char_facts c :
  is_scheme_char c = true ->
  c <> chr ":" /\ c <> chr "/" /\ is_unsafe_url_char c = false /\ 32 < c.
Proof.
  unfold is_scheme_char, is_ascii_alpha, is_upper, is_lower, is_digit.
  intros H. repeat (apply orb_prop in H as [H|H]);
    rewrite ?in_range_spec, ?N.eqb_eq in H.
  all: assert (Hc : 43 <= c /\ c <= 122 /\ c <> 58 /\ c <> 47)
         by (first [lia | subst c; repeat split; (discriminate || (intros ?; discriminate))]).
  all: destruct Hc as (? & ? & ? & ?); repeat split; try done; try lia.
  all: unfold is_unsafe_url_char;
       rewrite !(proj2 (N.eqb_neq _ _)) by lia; done.
Qed.

Lemma forallb_Forall {A} (f : A -> bool) l :
  forallb f l = true <-> Forall (fun x => f x = true) l.
Proof.
  induction l as [|x l IH]; simpl; [by split; [constructor|]|].
  by rewrite andb_true_iff, IH, Forall_cons.
Qed.

Lemma scheme_wf_facts sch :
  scheme_wf sch ->
  Forall (fun c => is_scheme_char c = true) sch /\ sch <> [].
Proof.
  intros (c & pre & -> & Hok & _). split; [|done].
  apply andb_prop in Hok as [_ Hall]. by apply forallb_Forall.
Qed.

Lemma startswith_app p rest : startswith (p ++ rest) p = true.
Proof.
  induction p as [|x p IH]; [by destruct rest|].
  cbn [app startswith]. by rewrite N.eqb_refl, IH.
Qed.

(** Parsing a URL put together from its parts gives the parts back. *)
Lemma urlparse_unparse chk sch net pth tail qry :
  scheme_wf sch ->
  Forall (fun c => is_netloc_delim c = false /\ is_unsafe_url_char c = false) net ->
  netloc_ok chk net = true ->
  Forall (fun c => plain_char c /\ c <> chr ";") pth ->
  match pth with [] => True | c :: _ => c = chr "/" end ->
  (tail = [] /\ qry = [] \/
   tail = chr "?" :: qry /\
   Forall (fun c => is_unsafe_url_char c = false /\ c <> chr "#") qry) ->
  urlparse chk (sch ++ str "://" ++ net ++ pth ++ tail)
  = Return (mkParseResult sch net pth [] qry []).
Proof.
  intros Hsch Hnet Hok Hpth Hshape Htail.
  pose proof (scheme_wf_facts _ Hsch) as [Hsc _].
  destruct Hsch as (c & pre & -> & Hc & Hlow).
  assert (Htl : Forall (fun c => is_unsafe_url_char c = false /\ c <> chr "#") tail).
  { destruct Htail as [[-> _]|[-> Hq]]; [constructor|]. by constructor. }
  assert (Hqry : cut_or (chr "?") (pth ++ tail) = (pth, qry)).
  { unfold cut_or. destruct Htail as [[-> ->]|[-> _]].
    - rewrite app_nil_r, cut_absent; [done|]. apply has_char_false.
      eapply Forall_impl; [exact Hpth|]. by intros x [(_ & _ & ?) _].
    - rewrite cut_app; [done|]. apply has_char_false.
      eapply Forall_impl; [exact Hpth|]. by intros x [(_ & _ & ?) _]. }
  assert (Hfrag : cut_or (chr "#") (pth ++ tail) = (pth ++ tail, [])).
  { unfold cut_or. rewrite cut_absent; [done|]. apply has_char_false.
    apply Forall_app. split.
    - eapply Forall_impl; [exact Hpth|]. by intros x [(_ & ? & _) _].
    - eapply Forall_impl; [exact Htl|]. by intros x [_ ?]. }
  assert (Hsplit : splitnetloc (net ++ pth ++ tail) = (net, pth ++ tail)).
  { unfold splitnetloc.
    destruct (take_while_app (fun c => negb (is_netloc_delim c)) net (pth ++ tail))
      as [-> ->]; [| |done].
    - eapply Forall_impl; [exact Hnet|]. by intros x [-> _].
    - destruct pth as [|x pth]; [|by subst x].
      destruct Htail as [[-> _]|[-> _]]; done. }
  set (url := (c :: pre) ++ str "://" ++ net ++ pth ++ tail).
  assert (Hstrip : lstrip_c0 url = url).
  { unfold lstrip_c0, url. cbn [app drop_while].
    apply Forall_cons in Hsc as [Hc0%scheme_char_facts _].
    destruct Hc0 as (_ & _ & _ & Hgt).
    by rewrite (proj2 (N.leb_gt _ _)) by done. }
  assert (Hsafe : remove_unsafe url = url).
  { apply remove_unsafe_id. unfold url. rewrite !Forall_app. repeat split.
    - eapply Forall_impl; [exact Hsc|]. intros x Hx%scheme_char_facts. tauto.
    - by repeat constructor.
    - eapply Forall_impl; [exact Hnet|]. by intros x [_ ?].
    - eapply Forall_impl; [exact Hpth|]. by intros x [(? & _) _].
    - eapply Forall_impl; [exact Htl|]. by intros x [? _]. }
  assert (Hscheme : split_scheme url
                    = (c :: pre, str "//" ++ net ++ pth ++ tail)).
  { unfold split_scheme, url.
    change (str "://" ++ net ++ pth ++ tail)
      with (chr ":" :: (str "//" ++ net ++ pth ++ tail)).
    rewrite cut_app.
    - by rewrite Hc, Hlow.
    - apply has_char_false. eapply Forall_impl; [exact Hsc|].
      intros x Hx%scheme_char_facts. tauto. }
  unfold urlparse, urlsplit. fold url. rewrite Hstrip, Hsafe, Hscheme.
  cbv beta iota zeta. rewrite startswith_app.
  change (drop 2 (str "//" ++ net ++ pth ++ tail)) with (net ++ pth ++ tail).
  cbv iota. rewrite Hsplit, Hok. cbn [negb]. rewrite Hfrag, Hqry.
  cbn [rbind path]. 
  assert (has_char (chr ";") pth = false) as ->.
  { apply has_char_false. eapply Forall_impl; [exact Hpth|]. by intros x [_ ?]. }
  by rewrite andb_false_r.
Qed.

Lemma cut_None c s : cut c s = None -> has_char c s = false.
Proof.
  unfold has_char. induction s as [|x s IH]; cbn [cut existsb]; [done|].
  destruct (N.eqb_spec x c) as [->|Hne]; [done|].
  destruct (cut c s) as [[a b]|]; [done|]. intros _.
  rewrite IH by done. by rewrite (proj2 (N.eqb_neq c x)) by done.
Qed.

Lemma cut_or_spec c s a b :
  cut_or c s = (a, b) ->
  has_char c a = false /\ (s = a /\ b = [] \/ s = a ++ c :: b).
Proof.
  unfold cut_or. destruct (cut c s) as [[a' b']|] eqn:Hcut.
  - intros [= <- <-]. apply cut_Some in Hcut as [-> ?]. auto.
  - intros [= <- <-]. apply cut_None in Hcut. auto.
Qed.

Lemma cut_or_Forall (P : N -> Prop) c s a b :
  cut_or c s = (a, b) -> Forall P s -> Forall P a /\ Forall P b.
Proof.
  intros [_ [[-> ->]| ->]]%cut_or_spec Hs; [by split|].
  apply Forall_app in Hs as [? [_ ?]%Forall_cons]. done.
Qed.

Lemma split_scheme_spec url sch rest :
  split_scheme url = (sch, rest) ->
  (sch = [] \/ scheme_wf sch) /\
  forall P : N -> Prop, Forall P url -> Forall P rest.
Proof.
  unfold split_scheme.
  destruct (cut (chr ":") url) as [[[|c pre] post]|] eqn:Hcut;
    try (intros [= <- <-]; by auto).
  destruct (isascii c && is_ascii_alpha c && forallb is_scheme_char (c :: pre))
    eqn:Hok; [|intros [= <- <-]; by auto].
  intros [= <- <-]. apply cut_Some in Hcut as [-> _]. split.
  - right. apply andb_prop in Hok as [[Hasc Halpha]%andb_prop Hall].
    exists (lower_char c), (lower pre). split; [done|]. split.
    + destruct (lower_char_alpha c Halpha) as [-> ->]. cbn [andb].
      apply forallb_Forall. apply forallb_Forall in Hall.
      change (lower_char c :: lower pre) with (lower (c :: pre)).
      unfold lower. apply Forall_fmap. eapply Forall_impl; [exact Hall|].
      intros x. apply lower_char_scheme.
    + change (lower_char c :: lower pre) with (lower (c :: pre)).
      apply lower_idemp.
  - intros P [_ [_ ?]%Forall_cons]%Forall_app. done.
Qed.

Lemma rsplit_slash_app url d seg : rsplit_slash url = (d, seg) -> url = d ++ seg.
Proof.
  revert d. induction url as [|c r IH]; intros d; cbn [rsplit_slash].
  - by intros [= <- <-].
  - destruct (has_char (chr "/") r).
    + destruct (rsplit_slash r) as [d' seg']. intros [= <- <-].
      cbn [app]. f_equal. by apply IH.
    + destruct (c =? chr "/"); by intros [= <- <-].
Qed.

Lemma splitparams_Forall (P : N -> Prop) url p prm :
  splitparams url = (p, prm) -> Forall P url -> Forall P p.
Proof.
  unfold splitparams. destruct (rsplit_slash url) as [d seg] eqn:Hr.
  apply rsplit_slash_app in Hr as ->.
  destruct (cut (chr ";") seg) as [[a b]|] eqn:Hcut.
  - intros [= <- <-]. apply cut_Some in Hcut as [-> _].
    rewrite !Forall_app. tauto.
  - by intros [= <- <-].
Qed.

(** What [urlparse] returns: a well-formed scheme or none, a host without
    delimiters that passed the checks, a path without [?] and [#]. *)
Lemma urlparse_parts chk u p :
  urlparse chk u = Return p ->
  (scheme p = [] \/ scheme_wf (scheme p)) /\
  Forall (fun c => is_netloc_delim c = false /\ is_unsafe_url_char c = false)
    (netloc p) /\
  netloc_ok chk (netloc p) = true /\
  Forall plain_char (path p).
Proof.
  unfold urlparse, urlsplit.
  pose proof (remove_unsafe_Forall (lstrip_c0 u)) as Hsafe.
  destruct (split_scheme (remove_unsafe (lstrip_c0 u))) as [sch url2] eqn:Hsch.
  apply split_scheme_spec in Hsch as [Hsch Hrest].
  apply Hrest in Hsafe. clear Hrest.
  destruct (if startswith url2 (str "//") then splitnetloc (drop 2 url2)
            else ([], url2)) as [net url3] eqn:Hnet.
  assert (Hn : Forall (fun c => is_netloc_delim c = false /\
                                is_unsafe_url_char c = false) net /\
               Forall (fun c => is_unsafe_url_char c = false) url3).
  { destruct (startswith url2 (str "//")).
    - revert Hnet. unfold splitnetloc. intros [= <- <-].
      pose proof (Forall_drop _ 2 _ Hsafe) as Hd.
      rewrite <- (take_drop_while (fun c => negb (is_netloc_delim c))
                    (drop 2 url2)) in Hd.
      apply Forall_app in Hd as [Ht Hd]. split; [|done].
      pose proof (take_while_Forall (fun c => negb (is_netloc_delim c))
                    (drop 2 url2)) as Hnd.
      apply Forall_and. split; [|done].
      eapply Forall_impl; [exact Hnd|]. cbv beta. intros x Hx.
      by destruct (is_netloc_delim x).
    - revert Hnet. intros [= <- <-]. split; [constructor|done]. }
  destruct Hn as [Hnet1 Hsafe3].
  destruct (netloc_ok chk net) eqn:Hok; [|done]. cbn [negb].
  destruct (cut_or (chr "#") url3) as [url4 frag] eqn:Hfrag.
  destruct (cut_or (chr "?") url4) as [url5 qry] eqn:Hqry.
  pose proof (cut_or_spec _ _ _ _ Hfrag) as [Hnofrag _].
  pose proof (cut_or_spec _ _ _ _ Hqry) as [Hnoqry _].
  destruct (cut_or_Forall _ _ _ _ _ Hfrag Hsafe3) as [Hsafe4 _].
  destruct (cut_or_Forall _ _ _ _ _ Hqry Hsafe4) as [Hsafe5 _].
  apply has_char_false in Hnofrag, Hnoqry.
  destruct (cut_or_Forall _ _ _ _ _ Hqry Hnofrag) as [Hnofrag5 _].
  assert (Hplain : Forall plain_char url5).
  { unfold plain_char. rewrite !Forall_and. done. }
  cbn [rbind scheme path netloc query fragment].
  destruct (bool_decide (sch ∈ uses_params) && has_char (chr ";") url5).
  - destruct (splitparams url5) as [p' prm] eqn:Hprm. intros [= <-].
    cbn [scheme netloc path]. repeat split; try done.
    by eapply splitparams_Forall.
  - intros [= <-]. done.
Qed.

Lemma flatten_values (items : list (pystr * list pystr)) name :
  NoDup (fst <$> items) ->
  snd <$> filter (fun nv : pystr * pystr => nv.1 = name)
            (items ≫= (fun kv => (fun v => (kv.1, v)) <$> kv.2))
  = default [] ((list_to_map items : gmap pystr (list pystr)) !! name).
Proof.
  induction items as [|[k vs] items IH]; [done|].
  rewrite fmap_cons, NoDup_cons. intros [Hk Hnd].
  change (((k, vs) :: items) ≫= (fun kv => (fun v => (kv.1, v)) <$> kv.2))
    with (((fun v => (k, v)) <$> vs)
          ++ (items ≫= (fun kv => (fun v => (kv.1, v)) <$> kv.2))).
  rewrite filter_app, fmap_app, IH by done.
  cbn [list_to_map foldr]. simpl in Hk.
  destruct (decide (k = name)) as [->|Hne].
  - rewrite lookup_insert_eq. cbn [default].
    rewrite (not_elem_of_list_to_map_1 _ name) by done. cbn [default].
    rewrite app_nil_r. clear. induction vs as [|v vs IH]; [done|].
    rewrite fmap_cons, filter_cons_True by done. by rewrite fmap_cons, IH.
  - rewrite lookup_insert_ne by done.
    assert (filter (fun nv : pystr * pystr => nv.1 = name)
              ((fun v => (k, v)) <$> vs) = []) as ->; [|done].
    clear -Hne. induction vs as [|v vs IH]; [done|].
    by rewrite fmap_cons, filter_cons_False by done.
Qed.

Lemma parse_qs_values q name vs : parse_qs q !! name = Some vs -> vs <> [].
Proof.
  unfold parse_qs. rewrite parse_qs_fold_lookup, lookup_empty.
  destruct (snd <$> filter _ (parse_qsl q)); [done|]. by intros [= <-].
Qed.

(** The dictionary survives being encoded and parsed again. *)
Lemma parse_qs_urlencode (m : gmap pystr (list pystr)) enc :
  (forall name vs, m !! name = Some vs -> vs <> []) ->
  urlencode (py_sorted item_lt (map_to_list m)) = Return enc ->
  parse_qs enc = m.
Proof.
  intros Hvs Henc. apply parse_qsl_urlencode in Henc.
  unfold parse_qs. rewrite Henc. apply map_eq. intros name.
  pose proof (py_sorted_Permutation item_lt (map_to_list m)) as Hperm.
  assert (Hnd : NoDup (fst <$> py_sorted item_lt (map_to_list m))).
  { rewrite Hperm. apply NoDup_fst_map_to_list. }
  rewrite parse_qs_fold_lookup, flatten_values, lookup_empty by done.
  rewrite (list_to_map_proper _ (map_to_list m)) by done.
  rewrite list_to_map_to_list.
  destruct (m !! name) as [vs|] eqn:Hm; [|done]. cbn [default].
  destruct vs; [by apply Hvs in Hm|done].
Qed.

Lemma parse_qs_step_not_empty m nv : parse_qs_step m nv <> ∅.
Proof.
  unfold parse_qs_step. destruct (m !! nv.1); apply insert_non_empty.
Qed.

Lemma parse_qs_not_empty q : parse_qsl q <> [] -> parse_qs q <> ∅.
Proof.
  unfold parse_qs.
  destruct (parse_qsl q) as [|nv pairs _] using rev_ind; [done|].
  intros _. rewrite foldl_app. apply parse_qs_step_not_empty.
Qed.

Lemma join_Forall (P : N -> Prop) c fields :
  P c -> Forall (Forall P) fields -> Forall P (join c fields).
Proof.
  intros Hc. induction 1 as [|f fields Hf Hall IH]; [constructor|].
  destruct fields as [|g fields]; [done|].
  change (join c (f :: g :: fields)) with (f ++ c :: join c (g :: fields)).
  apply Forall_app. split; [done|]. by constructor.
Qed.

(** What [urlencode] writes. *)
Lemma urlencode_chars items enc :
  urlencode items = Return enc ->
  Forall (fun c => always_safe c = true \/ c = chr "%" \/ c = chr "+" \/
                   c = chr "=" \/ c = chr "&") enc.
Proof.
  unfold urlencode.
  destruct (rmapM urlencode_item items) as [l|] eqn:Hl; [|done].
  intros [= <-]. apply join_Forall; [tauto|].
  revert l Hl. induction items as [|kv items IH]; intros l; cbn [rmapM rbind].
  { intros [= <-]. constructor. }
  destruct (urlencode_item kv) as [fs|] eqn:Hkv; [|done]. cbn [rbind].
  destruct (rmapM urlencode_item items) as [l'|]; [|done]. cbn [rbind].
  intros [= <-]. cbn [concat]. apply Forall_app. split; [|by apply IH].
  clear IH. revert Hkv. unfold urlencode_item.
  destruct (quote_plus kv.1) as [ek|] eqn:Hk; [|done]. cbn [rbind].
  apply quote_plus_chars in Hk.
  generalize kv.2. intros vs. revert fs.
  induction vs as [|v vs IH]; intros fs; cbn [rmapM rbind].
  { intros [= <-]. constructor. }
  destruct (quote_plus v) as [ev|] eqn:Hv; [|done]. cbn [rbind].
  destruct (rmapM _ vs) as [fs'|]; [|done]. cbn [rbind].
  intros [= <-]. constructor; [|by apply IH].
  apply quote_plus_chars in Hv. apply Forall_app. split; [|constructor].
  - eapply Forall_impl; [exact Hk|]. tauto.
  - tauto.
  - eapply Forall_impl; [exact Hv|]. tauto.
Qed.

Lemma count_char_app c a b :
  count_char c (a ++ b) = (count_char c a + count_char c b)%nat.
Proof. unfold count_char. by rewrite List.filter_app, length_app. Qed.

Lemma count_char_absent c s : Forall (fun x => x <> c) s -> count_char c s = 0%nat.
Proof.
  unfold count_char. induction 1 as [|x s Hx _ IH]; [done|]. simpl.
  by rewrite (proj2 (N.eqb_neq c x)) by done.
Qed.

Lemma endswith_char_app_absent a b c :
  b <> [] -> Forall (fun x => x <> c) b -> endswith_char (a ++ b) c = false.
Proof.
  intros Hne Hb. unfold endswith_char.
  destruct b as [|x b _] using rev_ind; [done|].
  rewrite app_assoc, last_snoc.
  apply Forall_app in Hb as [_ [Hx _]%Forall_cons]. by apply N.eqb_neq.
Qed.

Lemma drop_last_snoc a x : drop_last (a ++ [x]) = a.
Proof.
  unfold drop_last. rewrite length_app. simpl.
  replace (List.length a + 1 - 1)%nat with (List.length a) by lia.
  by rewrite take_app_length.
Qed.

Lemma endswith_char_snoc s c :
  endswith_char s c = true -> exists t, s = t ++ [c].
Proof.
  unfold endswith_char. destruct s as [|x s _] using rev_ind; [done|].
  rewrite last_snoc. intros ->%N.eqb_eq. eauto.
Qed.

(** The prefix [scheme://host] holds two slashes. *)
Lemma prefix_slashes sch net :
  scheme_wf sch ->
  Forall (fun c => is_netloc_delim c = false /\ is_unsafe_url_char c = false) net ->
  count_char (chr "/") (sch ++ str "://" ++ net) = 2%nat.
Proof.
  intros [Hsch _]%scheme_wf_facts Hnet.
  rewrite !count_char_app, (count_char_absent _ sch), (count_char_absent _ net).
  - reflexivity.
  - eapply Forall_impl; [exact Hnet|]. intros x [Hx _] ->. discriminate Hx.
  - eapply Forall_impl; [exact Hsch|]. intros x Hx%scheme_char_facts. tauto.
Qed.

(** Normalising a URL without query that is put together from its parts. *)
Lemma normalize_url_unparse chk sch net pth :
  scheme_wf sch ->
  Forall (fun c => is_netloc_delim c = false /\ is_unsafe_url_char c = false) net ->
  netloc_ok chk net = true ->
  Forall (fun c => plain_char c /\ c <> chr ";") pth ->
  match pth with [] => True | c :: _ => c = chr "/" end ->
  normalize_url chk (sch ++ str "://" ++ net ++ pth)
  = Return (strip_trailing_slash (sch ++ str "://" ++ net ++ pth)).
Proof.
  intros Hsch Hnet Hok Hpth Hshape.
  pose proof (urlparse_unparse chk sch net pth [] [] Hsch Hnet Hok Hpth Hshape
                (or_introl (conj eq_refl eq_refl))) as Hparse.
  rewrite app_nil_r in Hparse. unfold normalize_url. rewrite Hparse.
  reflexivity.
Qed.

(** C3, as the code has it. A second pass changes nothing for a URL with a
    scheme whose path is empty or starts with a slash, holds no [;] and does
    not end in a doubled slash, and whose query, if there is one, holds at
    least one field; this covers the queries whose names and values the
    first pass decodes and encodes again. (When the first pass raises, so
    does the composition.) *)
Theorem normalize_url_idempotent chk u p :
  urlparse chk u = Return p ->
  scheme p <> [] ->
  match path p with [] => True | c :: _ => c = chr "/" end ->
  has_char (chr ";") (path p) = false ->
  (forall t, path p <> t ++ str "//") ->
  (query p = [] \/ parse_qsl (query p) <> []) ->
  rbind (normalize_url chk u) (normalize_url chk) = normalize_url chk u.
Proof.
  intros Hparse Hscheme Hshape Hsemi Hdouble Hquery.
  destruct (urlparse_parts _ _ _ Hparse) as (Hsch & Hnet & Hok & Hplain).
  destruct Hsch as [Hsch|Hsch]; [done|].
  assert (Hpth : Forall (fun c => plain_char c /\ c <> chr ";") (path p)).
  { apply Forall_and. split; [done|]. by apply has_char_false. }
  clear Hplain Hsemi.
  destruct (decide (query p = [])) as [Hq|Hq].
  - (* no query *)
    assert (Hn : normalize_url chk u
                 = Return (strip_trailing_slash
                             (scheme p ++ str "://" ++ netloc p ++ path p))).
    { unfold normalize_url. rewrite Hparse. cbn [rbind].
      by rewrite bool_decide_eq_true_2 by done. }
    rewrite Hn. cbn [rbind]. clear Hn Hparse Hq Hquery.
    remember (path p) as pth eqn:Hp0. clear Hp0.
    assert (Hs : strip_trailing_slash (scheme p ++ str "://" ++ netloc p ++ pth)
                 = if endswith_char (scheme p ++ str "://" ++ netloc p ++ pth)
                        (chr "/") &&
                      bool_decide (3 < count_char (chr "/")
                                 (scheme p ++ str "://" ++ netloc p ++ pth))%nat
                   then drop_last (scheme p ++ str "://" ++ netloc p ++ pth)
                   else scheme p ++ str "://" ++ netloc p ++ pth)
      by reflexivity.
    rewrite Hs. clear Hs.
    destruct (endswith_char (scheme p ++ str "://" ++ netloc p ++ pth) (chr "/") &&
              bool_decide (3 < count_char (chr "/")
                                 (scheme p ++ str "://" ++ netloc p ++ pth))%nat)
      eqn:Hstrip.
    + apply andb_prop in Hstrip as [Hend Hcount].
      apply bool_decide_eq_true_1 in Hcount.
      rewrite !app_assoc in Hcount.
      rewrite count_char_app, <- !app_assoc, prefix_slashes in Hcount by done.
      destruct pth as [|c0 pth0 _] using rev_ind.
      { change (count_char (chr "/") []) with 0%nat in Hcount. lia. }
      assert (c0 = chr "/") as ->.
      { apply endswith_char_snoc in Hend as [t Ht].
        rewrite !app_assoc in Ht. by apply app_inj_tail in Ht as [_ ?]. }
      rewrite count_char_app in Hcount.
      assert (Hpth0 : pth0 <> []).
      { intros ->. change (count_char (chr "/") []) with 0%nat in Hcount.
        change (count_char (chr "/") [chr "/"]) with 1%nat in Hcount. lia. }
      rewrite !app_assoc, drop_last_snoc, <- !app_assoc.
      apply Forall_app in Hpth as [Hpth _].
      rewrite normalize_url_unparse; try done.
      * f_equal. unfold strip_trailing_slash.
        destruct pth0 as [|x t _] using rev_ind; [done|].
        assert (x <> chr "/").
        { intros ->. apply (Hdouble t). by rewrite <- app_assoc. }
        rewrite !app_assoc, endswith_char_app_absent; [done|done|].
        by repeat constructor.
      * destruct pth0 as [|x pth0]; [done|]. exact Hshape.
    + rewrite normalize_url_unparse by done.
      f_equal. unfold strip_trailing_slash. by rewrite Hstrip.
  - (* a query *)
    destruct Hquery as [?|Hpairs]; [done|].
    set (r0 := scheme p ++ str "://" ++ netloc p ++ path p).
    destruct (urlencode (py_sorted item_lt (map_to_list (parse_qs (query p)))))
      as [enc|e] eqn:Henc.
    2:{ assert (Hn : normalize_url chk u = Raise e).
        { unfold normalize_url. rewrite Hparse. cbn [rbind].
          rewrite bool_decide_eq_false_2 by done. by rewrite Henc. }
        by rewrite Hn. }
    pose proof (parse_qs_urlencode _ _ (parse_qs_values (query p)) Henc) as Hback.
    pose proof (urlencode_chars _ _ Henc) as Hchars.
    assert (Hne : enc <> []).
    { intros ->. by apply (parse_qs_not_empty (query p)). }
    assert (Hkeep : strip_trailing_slash (r0 ++ chr "?" :: enc)
                    = r0 ++ chr "?" :: enc).
    { unfold strip_trailing_slash.
      rewrite endswith_char_app_absent; [done|done|].
      constructor; [done|]. eapply Forall_impl; [exact Hchars|].
      intros x [Hx|[->|[->|[->| ->]]]]; try done.
      by apply always_safe_not_special. }
    assert (Hn : normalize_url chk u = Return (r0 ++ chr "?" :: enc)).
    { unfold normalize_url. rewrite Hparse. cbn [rbind].
      rewrite bool_decide_eq_false_2 by done. rewrite Henc. cbn [rbind].
      fold r0. by rewrite Hkeep. }
    rewrite Hn. cbn [rbind].
    assert (Hre : urlparse chk (r0 ++ chr "?" :: enc)
                  = Return (mkParseResult (scheme p) (netloc p) (path p) [] enc [])).
    { unfold r0. rewrite <- !app_assoc.
      apply urlparse_unparse; try done. right. split; [done|].
      eapply Forall_impl; [exact Hchars|].
      intros x [Hx|[->|[->|[->| ->]]]]; try done.
      apply always_safe_not_special in Hx. tauto. }
    unfold normalize_url. rewrite Hre. cbn [rbind scheme netloc path query].
    rewrite bool_decide_eq_false_2 by done. rewrite Hback, Henc.
    cbn [rbind]. fold r0. by rewrite Hkeep.
Qed.

Lemma normalize_url_idempotent_witness :
  let u := str "http://h/p/?b=x%20y&a=caf%C3%A9" in
  normalize_url (fun _ => true) u
  = Return (str "http://h/p/?a=caf%C3%A9&b=x+y") /\
  rbind (normalize_url (fun _ => true) u) (normalize_url (fun _ => true))
  = normalize_url (fun _ => true) u.
Proof.
  intros u. split; [vm_compute; reflexivity|].
  apply (normalize_url_idempotent (fun _ => true) u
           (mkParseResult (str "http") (str "h") (str "/p/") []
              (str "b=x%20y&a=caf%C3%A9") [])).
  - vm_compute. reflexivity.
  - discriminate.
  - reflexivity.
  - reflexivity.
  - intros [|a [|b t]] H.
    + vm_compute in H. discriminate H.
    + vm_compute in H. discriminate H.
    + apply (f_equal List.length) in H. cbn [app] in H.
      rewrite !length_cons, length_app in H.
      change (3 = S (S (List.length t + 2)))%nat in H. lia.
  - right. vm_compute. discriminate.
Defined.

(** C3, as claimed, fails on a path that ends in two slashes: each pass
    strips one. *)
Lemma normalize_url_not_idempotent :
  let normalize := normalize_url (fun _ => true) in
  normalize (str "http://h/a//") = Return (str "http://h/a/") /\
  rbind (normalize (str "http://h/a//")) normalize = Return (str "http://h/a") /\
  rbind (normalize (str "http://h/a//")) normalize
  <> normalize (str "http://h/a//").
Proof.
  intros normalize.
  assert (H1 : normalize (str "http://h/a//") = Return (str "http://h/a/"))
    by (vm_compute; reflexivity).
  assert (H2 : normalize (str "http://h/a/") = Return (str "http://h/a"))
    by (vm_compute; reflexivity).
  split; [exact H1|]. rewrite H1. cbn [rbind]. rewrite H2.
  split; [reflexivity|discriminate].
Qed.
